(** * repo2prompt: content aggregation and caching engine

    A shallow embedding of [src/content.py] and the properties of its
    reference resolver, paginated fetch client, snapshot check, file-system
    enumerator and folder aggregator.

    Conventions of the embedding.
    - Python values that travel through [json] are the type [pyval]; a dict
      is an association list in insertion order (as CPython keeps it),
      numbers are integers (JSON numbers with a fraction are not modelled).
    - A Python [str] is a Rocq [string]; one character is one [ascii].
    - Code that can raise returns a [res]; code that touches the network or
      the cache directory is a function on an explicit [world].
    - The [while True] loop of [fetch_repo_content] is bounded by a fuel
      argument; running out of fuel is the outcome [Diverge], never a value. *)

From Stdlib Require Import ZArith Lia Ascii String.
From stdpp Require Import gmap strings list pretty.

Set Warnings "-register-all".

Local Open Scope string_scope.
Local Open Scope list_scope.
Local Open Scope Z_scope.

(** ** Exceptions and outcomes *)

(** The exception classes the program can meet.  [HTTPError] and
    [ConnectionError] are the subclasses of
    [requests.exceptions.RequestException] used here. *)
Inductive exn : Type :=
  | ValueError (msg : string)
  | TypeError
  | KeyError (key : string)
  | AttributeError
  | FileNotFoundError (path : string)
  | HTTPError (status : Z) (url : string)
  | ConnectionError (url : string).

(** [isinstance(e, requests.exceptions.RequestException)] *)
Definition is_RequestException (e : exn) : bool :=
  match e with
  | HTTPError _ _ | ConnectionError _ => true
  | _ => false
  end.

Inductive res (A : Type) : Type :=
  | Ok (a : A)
  | Raise (e : exn)
  | Diverge.
Arguments Ok {A} a.
Arguments Raise {A} e.
Arguments Diverge {A}.

Definition res_bind {A B} (r : res A) (k : A -> res B) : res B :=
  match r with
  | Ok a => k a
  | Raise e => Raise e
  | Diverge => Diverge
  end.

(** ** Python values *)

Inductive pyval : Type :=
  | PNone
  | PBool (b : bool)
  | PInt (n : Z)
  | PStr (s : string)
  | PList (items : list pyval)
  | PDict (entries : list (string * pyval)).

(** [d[k]] on the entries of a dict. *)
Fixpoint dict_get (k : string) (entries : list (string * pyval)) : option pyval :=
  match entries with
  | [] => None
  | (k', v) :: rest => if String.eqb k' k then Some v else dict_get k rest
  end.

(** The characters of a [str], each as a [str] of length one. *)
Fixpoint str_chars (s : string) : list pyval :=
  match s with
  | EmptyString => []
  | String c s' => PStr (String c EmptyString) :: str_chars s'
  end.

(** [iter(v)] run to the end: what [list.extend(v)] appends and what
    [for item in v] visits.  A dict iterates over its keys. *)
Definition py_iter (v : pyval) : res (list pyval) :=
  match v with
  | PList items => Ok items
  | PDict entries => Ok (map (fun kv => PStr (fst kv)) entries)
  | PStr s => Ok (str_chars s)
  | PNone | PBool _ | PInt _ => Raise TypeError
  end.

(** [len(v)] *)
Definition py_len (v : pyval) : res Z :=
  match v with
  | PList items => Ok (Z.of_nat (length items))
  | PDict entries => Ok (Z.of_nat (length entries))
  | PStr s => Ok (Z.of_nat (String.length s))
  | PNone | PBool _ | PInt _ => Raise TypeError
  end.

(** [v[key]] for a string key: only a dict accepts it. *)
Definition py_getitem (v : pyval) (key : string) : res pyval :=
  match v with
  | PDict entries =>
      match dict_get key entries with
      | Some x => Ok x
      | None => Raise (KeyError key)
      end
  | _ => Raise TypeError
  end.


(** [a == b].  [bool] is a subclass of [int], so [True == 1]; two dicts are
    equal when they have the same keys with equal values, in any order. *)
Fixpoint py_eq (a b : pyval) {struct a} : bool :=
  match a with
  | PNone => match b with PNone => true | _ => false end
  | PBool x =>
      match b with
      | PBool y => Bool.eqb x y
      | PInt n => Z.eqb (Z.b2z x) n
      | _ => false
      end
  | PInt m =>
      match b with
      | PBool y => Z.eqb m (Z.b2z y)
      | PInt n => Z.eqb m n
      | _ => false
      end
  | PStr s => match b with PStr t => String.eqb s t | _ => false end
  | PList xs =>
      match b with
      | PList ys =>
          (fix go (xs ys : list pyval) {struct xs} : bool :=
             match xs, ys with
             | [], [] => true
             | x :: xs', y :: ys' => py_eq x y && go xs' ys'
             | _, _ => false
             end) xs ys
      | _ => false
      end
  | PDict d =>
      match b with
      | PDict e =>
          Nat.eqb (length d) (length e) &&
          (fix go (d : list (string * pyval)) {struct d} : bool :=
             match d with
             | [] => true
             | (k, v) :: d' =>
                 match dict_get k e with
                 | Some w => py_eq v w && go d'
                 | None => false
                 end
             end) d
      | _ => false
      end
  end.

(** ** String helpers of the Python [str] API *)

Definition slash : ascii := "/"%char.
Definition underscore : ascii := "_"%char.

(** [s.replace(a, b)] for single characters [a] and [b]. *)
Fixpoint replace_char (a b : ascii) (s : string) : string :=
  match s with
  | EmptyString => EmptyString
  | String c s' => String (if Ascii.eqb c a then b else c) (replace_char a b s')
  end.

(** [s.split(sep)] for a single-character separator: never empty. *)
Fixpoint split_on (sep : ascii) (s : string) : list string :=
  match s with
  | EmptyString => [EmptyString]
  | String c s' =>
      if Ascii.eqb c sep then EmptyString :: split_on sep s'
      else match split_on sep s' with
           | seg :: rest => String c seg :: rest
           | [] => [String c EmptyString]
           end
  end.

Fixpoint lstrip_char (c : ascii) (s : string) : string :=
  match s with
  | String a s' => if Ascii.eqb a c then lstrip_char c s' else s
  | EmptyString => EmptyString
  end.

Fixpoint rstrip_char (c : ascii) (s : string) : string :=
  match s with
  | EmptyString => EmptyString
  | String a s' =>
      match rstrip_char c s' with
      | EmptyString => if Ascii.eqb a c then EmptyString else String a EmptyString
      | r => String a r
      end
  end.

(** [s.strip(c)] for a single character [c]. *)
Definition strip_char (c : ascii) (s : string) : string :=
  rstrip_char c (lstrip_char c s).

(** [s.startswith(p)] *)
Fixpoint startswith (p s : string) : bool :=
  match p, s with
  | EmptyString, _ => true
  | String a p', String b s' => Ascii.eqb a b && startswith p' s'
  | String _ _, EmptyString => false
  end.

(** [s.endswith(suffix)] *)
Definition endswith (s suffix : string) : bool :=
  startswith (String.rev suffix) (String.rev s).

(** [str(n)] for an [int]. *)
Definition str_of_int (n : Z) : string := pretty n.

(** ** Constants *)

Definition GITHUB_API_URL : string := "https://api.github.com".
Definition DEFAULT_EXCLUSIONS : list string := [".git"; "node_modules"].
Definition SUPPORTED_FILETYPES : list string :=
  [".py"; ".ipynb"; ".html"; ".css"; ".js"; ".jsx"; ".md"; ".rst"].

(** [any(name.endswith(ext) for ext in SUPPORTED_FILETYPES)] *)
Definition has_supported_filetype (name : string) : bool :=
  existsb (endswith name) SUPPORTED_FILETYPES.

(** [c in s] *)
Fixpoint str_mem (c : ascii) (s : string) : bool :=
  match s with
  | EmptyString => false
  | String a s' => Ascii.eqb a c || str_mem c s'
  end.

(** A segment that is not empty. *)
Definition nonempty (seg : string) : Prop := seg <> EmptyString.

(** A string that does not start with the separator. *)
Definition no_lead (sep : ascii) (s : string) : Prop :=
  match s with
  | String a _ => Ascii.eqb a sep = false
  | EmptyString => True
  end.

(** ** Reference resolver *)

(** *** [urllib.parse.urlparse(url).path]

    The path component as CPython 3.11 computes it, [urlsplit] first and
    the parameters after it: leading C0 control characters and blanks are
    stripped, tabs, carriage returns and line feeds are removed, an optional
    scheme is cut off at the first colon, a network location introduced by
    two slashes runs up to the first of slash, question mark and hash and is
    refused with a [ValueError] when its square brackets do not balance,
    then the fragment, the query and the parameters of the last segment are
    removed.

    Two parts of the library are not spelled out.  The validation of a host
    in balanced brackets ([_check_bracketed_netloc], which parses the host
    with the [ipaddress] module and raises nothing but [ValueError]) is the
    parameter [bracketed_netloc_error]: the message of the error for a
    network location, if it is refused.  The NFKC check of [_checknetloc]
    raises only when the normal form of a character is one of [/?#@:], which
    no character below 256 has, so it never fires on a [string]. *)

Fixpoint str_find (c : ascii) (s : string) : option nat :=
  match s with
  | EmptyString => None
  | String a s' =>
      if Ascii.eqb a c then Some 0%nat else S <$> str_find c s'
  end.

Fixpoint str_take (n : nat) (s : string) : string :=
  match n, s with
  | S n', String a s' => String a (str_take n' s')
  | _, _ => EmptyString
  end.

Fixpoint str_drop (n : nat) (s : string) : string :=
  match n, s with
  | S n', String _ s' => str_drop n' s'
  | _, _ => s
  end.

Fixpoint str_forallb (p : ascii -> bool) (s : string) : bool :=
  match s with
  | EmptyString => true
  | String a s' => p a && str_forallb p s'
  end.

Definition is_ascii_alpha (c : ascii) : bool :=
  let n := nat_of_ascii c in
  ((65 <=? n) && (n <=? 90) || (97 <=? n) && (n <=? 122))%nat.

Definition is_scheme_char (c : ascii) : bool :=
  let n := nat_of_ascii c in
  (is_ascii_alpha c || (48 <=? n) && (n <=? 57)
   || Ascii.eqb c "+" || Ascii.eqb c "-" || Ascii.eqb c ".")%nat.

Definition ascii_lower (c : ascii) : ascii :=
  let n := nat_of_ascii c in
  if ((65 <=? n) && (n <=? 90))%nat then ascii_of_nat (n + 32) else c.

Fixpoint str_lower (s : string) : string :=
  match s with
  | EmptyString => EmptyString
  | String a s' => String (ascii_lower a) (str_lower s')
  end.

(** The text before the first [c], all of [s] when there is none. *)
Definition before_first (c : ascii) (s : string) : string :=
  match str_find c s with
  | Some i => str_take i s
  | None => s
  end.

(** The scheme (lower-cased) and what follows it. *)
Definition split_scheme (url : string) : string * string :=
  match str_find ":" url with
  | Some (S i) =>
      match url with
      | String a _ =>
          if is_ascii_alpha a && str_forallb is_scheme_char (str_take (S i) url)
          then (str_lower (str_take (S i) url), str_drop (S (S i)) url)
          else (EmptyString, url)
      | EmptyString => (EmptyString, url)
      end
  | _ => (EmptyString, url)
  end.

(** The index of the first of slash, question mark and hash. *)
Fixpoint netloc_end (s : string) : nat :=
  match s with
  | EmptyString => 0%nat
  | String a s' =>
      if Ascii.eqb a "/" || Ascii.eqb a "?" || Ascii.eqb a "#" then 0%nat
      else S (netloc_end s')
  end.

(** [url.lstrip(_WHATWG_C0_CONTROL_OR_SPACE)]: the characters up to the
    blank. *)
Definition is_c0_or_space (c : ascii) : bool := (nat_of_ascii c <=? 32)%nat.

Fixpoint lstrip_c0 (s : string) : string :=
  match s with
  | String a s' => if is_c0_or_space a then lstrip_c0 s' else s
  | EmptyString => EmptyString
  end.

(** [_UNSAFE_URL_BYTES_TO_REMOVE]: tab, carriage return, line feed. *)
Definition is_unsafe_url_char (c : ascii) : bool :=
  Ascii.eqb c "009" || Ascii.eqb c "013" || Ascii.eqb c "010".

(** [for b in _UNSAFE_URL_BYTES_TO_REMOVE: url = url.replace(b, "")] *)
Fixpoint remove_unsafe (s : string) : string :=
  match s with
  | EmptyString => EmptyString
  | String a s' =>
      if is_unsafe_url_char a then remove_unsafe s' else String a (remove_unsafe s')
  end.

Definition uses_params : list string :=
  [""; "ftp"; "hdl"; "prospero"; "http"; "imap"; "https"; "shttp"; "rtsp";
   "rtspu"; "sip"; "sips"; "mms"; "sftp"; "tel"].

(** [_splitparams]: the parameters start at the first semicolon of the
    last path segment. *)
Fixpoint drop_params (s : string) : string :=
  match s with
  | EmptyString => EmptyString
  | String a s' =>
      if Ascii.eqb a ";" then
        match str_find "/" s' with
        | Some _ => String a (drop_params s')
        | None => EmptyString
        end
      else String a (drop_params s')
  end.

Section Resolver.

(** The message of the [ValueError] that [_check_bracketed_netloc] raises
    for a network location, [None] when it accepts it. *)
Variable bracketed_netloc_error : string -> option string.

(** The checks of [urlsplit] on the square brackets of the network
    location. *)
Definition check_netloc (netloc : string) : res unit :=
  let opened := str_mem "[" netloc in
  let closed := str_mem "]" netloc in
  if xorb opened closed then Raise (ValueError "Invalid IPv6 URL")
  else if opened && closed then
    match bracketed_netloc_error netloc with
    | Some msg => Raise (ValueError msg)
    | None => Ok tt
    end
  else Ok tt.

(** [if url[:2] == '//': netloc, url = _splitnetloc(url, 2)], with the
    checks on the network location: what follows it. *)
Definition drop_netloc (url : string) : res string :=
  if startswith "//" url
  then
    let rest := str_drop 2 url in
    let netloc := str_take (netloc_end rest) rest in
    res_bind (check_netloc netloc) (fun _ => Ok (str_drop (netloc_end rest) rest))
  else Ok url.

Definition urlparse_path (url : string) : res string :=
  let url := remove_unsafe (lstrip_c0 url) in
  let '(scheme, rest) := split_scheme url in
  res_bind (drop_netloc rest) (fun rest =>
    let rest := before_first "#" rest in
    let rest := before_first "?" rest in
    Ok (if existsb (String.eqb scheme) uses_params then drop_params rest else rest)).

(** *** [parse_github_url] *)

Definition parse_github_url (url : string) : res (string * string) :=
  res_bind (urlparse_path url) (fun path =>
    let path_segments := split_on slash (strip_char slash path) in
    if (2 <=? length path_segments)%nat
    then Ok (nth 0 path_segments EmptyString, nth 1 path_segments EmptyString)
    else Raise (ValueError "Invalid GitHub URL provided!")).

End Resolver.

(** The non-empty segments of a path, in order. *)
Definition nonempty_segments (path : string) : list string :=
  filter (fun seg => seg <> EmptyString) (split_on slash path).


(** ** The world: cache directory and network *)

(** [os.path.join(a, b)] on POSIX. *)
Definition path_join (a b : string) : string :=
  if startswith "/" b then b
  else if String.eqb a "" || endswith a "/" then a +:+ b
  else a +:+ "/" +:+ b.

(** What [os.path.join] puts in front of a relative name. *)
Definition dir_prefix (dir : string) : string :=
  if String.eqb dir "" || endswith dir "/" then dir else dir +:+ "/".

Record request : Type := Request {
  req_url : string;
  req_headers : list (string * string)
}.

(** What [requests.get] meets: no answer at all (it raises a
    [ConnectionError]) or a response with a status code and a body, the body
    given as the value [response.json()] decodes it to. *)
Inductive response : Type :=
  | NoResponse
  | Response (status : Z) (body : pyval).

(** The files hold JSON documents, kept as the value [json.load] reads back;
    [dirs] are the directories [os.makedirs] has been asked for; [log] is
    the list of HTTP requests issued so far, oldest first.  Failures that
    depend on the state of the operating system (permissions, a full disk, a
    file that is not JSON) are not modelled. *)
Record world : Type := World {
  files : gmap string pyval;
  dirs : gset string;
  log : list request
}.

Definition M (A : Type) : Type := world -> res A * world.

Definition ret {A} (a : A) : M A := fun w => (Ok a, w).

Definition raise {A} (e : exn) : M A := fun w => (Raise e, w).

Definition lift {A} (r : res A) : M A := fun w => (r, w).

Definition bind {A B} (m : M A) (k : A -> M B) : M B :=
  fun w =>
    match m w with
    | (Ok a, w') => k a w'
    | (Raise e, w') => (Raise e, w')
    | (Diverge, w') => (Diverge, w')
    end.

Declare Scope py_scope.
Delimit Scope py_scope with py.
Notation "x <- m ;; k" := (bind m (fun x => k))
  (at level 100, m at next level, right associativity) : py_scope.
Notation "m ;;; k" := (bind m (fun _ => k))
  (at level 100, right associativity) : py_scope.
Notation "x <~ r ;; k" := (res_bind r (fun x => k))
  (at level 100, r at next level, right associativity) : py_scope.

(** [try: body  except <class>: handler] *)
Definition try_except {A} (body : M A) (catches : exn -> bool) (handler : M A) : M A :=
  fun w =>
    match body w with
    | (Raise e, w') => if catches e then handler w' else (Raise e, w')
    | other => other
    end.

(** [os.path.exists(path)] *)
Definition path_exists (path : string) : M bool :=
  fun w => (Ok (bool_decide (is_Some (files w !! path))), w).

(** [with open(path, 'r') as file: json.load(file)] *)
Definition json_load (path : string) : M pyval :=
  fun w =>
    match files w !! path with
    | Some v => (Ok v, w)
    | None => (Raise (FileNotFoundError path), w)
    end.

(** [with open(path, 'w') as file: json.dump(v, file)] *)
Definition json_dump (v : pyval) (path : string) : M unit :=
  fun w => (Ok tt, World (<[path := v]> (files w)) (dirs w) (log w)).

(** [os.makedirs(dir, exist_ok=True)]: the empty path names no directory,
    [mkdir] refuses it with a [FileNotFoundError]. *)
Definition makedirs (dir : string) : M unit :=
  fun w =>
    if String.eqb dir ""
    then (Raise (FileNotFoundError dir), w)
    else (Ok tt, World (files w) ({[dir]} ∪ dirs w) (log w)).

(** [response.raise_for_status()]: statuses 400 to 599 raise. *)
Definition raise_for_status (url : string) (status : Z) : res unit :=
  if (400 <=? status) && (status <? 600) then Raise (HTTPError status url)
  else Ok tt.

Definition NL : string := String "010"%char EmptyString.

(** The text block of one file:
    [f"\n{identifier}:\n```\n{content}\n```\n"]. *)
Definition file_block (identifier content : string) : string :=
  NL +:+ identifier +:+ ":" +:+ NL +:+ "```" +:+ NL +:+ content +:+ NL +:+ "```" +:+ NL.

Section Remote.

(** The remote API: the answer to a request, given the requests served
    before it. *)
Variable server : list request -> request -> response.

(** [base64.b64decode(s).decode('utf-8')] on a [str]. *)
Variable b64decode_utf8 : string -> res string.

Local Open Scope py_scope.

(** [requests.get(url, headers=headers)]: the request is logged, then
    answered. *)
Definition requests_get (url : string) (headers : list (string * string))
  : M (Z * pyval) :=
  fun w =>
    let rq := Request url headers in
    let w' := World (files w) (dirs w) (log w ++ [rq])%list in
    match server (log w) rq with
    | NoResponse => (Raise (ConnectionError url), w')
    | Response status body => (Ok (status, body), w')
    end.

Definition request_headers (token : option string) : list (string * string) :=
  ("Accept", "application/vnd.github.v3+json") ::
  match token with
  | Some t => if String.eqb t "" then [] else [("Authorization", "Bearer " +:+ t)]
  | None => []
  end.

Definition paginated_url (url : string) (per_page page : Z) : string :=
  url +:+ "?per_page=" +:+ str_of_int per_page +:+ "&page=" +:+ str_of_int page.

(** The request for one page. *)
Definition page_request (url : string) (headers : list (string * string))
    (per_page page : Z) : request :=
  Request (paginated_url url per_page page) headers.

(** The requests for [n] pages in a row, from page [start] on. *)
Definition page_requests (url : string) (headers : list (string * string))
    (per_page start : Z) (n : nat) : list request :=
  map (fun i => page_request url headers per_page (start + Z.of_nat i)) (seq 0 n).


(** The [while True] loop of [fetch_repo_content], one iteration per unit
    of fuel. *)
Fixpoint fetch_pages (fuel : nat) (url : string) (headers : list (string * string))
    (per_page page : Z) (all_items : list pyval) : M (list pyval) :=
  match fuel with
  | O => lift Diverge
  | S fuel' =>
      let purl := paginated_url url per_page page in
      rsp <- requests_get purl headers ;;
      lift (raise_for_status purl (fst rsp)) ;;;
      let items := snd rsp in
      added <- lift (py_iter items) ;;
      let all_items := (all_items ++ added)%list in
      n <- lift (py_len items) ;;
      if n <? per_page then ret all_items
      else fetch_pages fuel' url headers per_page (page + 1) all_items
  end.

Definition cache_file_of (cache_dir url : string) : string :=
  path_join cache_dir (replace_char slash underscore url +:+ ".json").

Definition fetch_repo_content (fuel : nat) (url : string) (token : option string)
    (cache_dir : string) (per_page : Z) : M pyval :=
  let cache_file := cache_file_of cache_dir url in
  cached <- path_exists cache_file ;;
  if cached then json_load cache_file
  else
    all_items <- fetch_pages fuel url (request_headers token) per_page 1 [] ;;
    makedirs cache_dir ;;;
    json_dump (PList all_items) cache_file ;;;
    ret (PList all_items).

(** *** [process_github_repo] *)

(** [base64.b64decode(v).decode('utf-8')]: anything but a [str] is refused
    with a [TypeError]. *)
Definition b64decode_value (v : pyval) : res string :=
  match v with
  | PStr s => b64decode_utf8 s
  | _ => Raise TypeError
  end.

Definition readme_placeholder : string :=
  "README.md: Not found or error fetching README" +:+ NL +:+ NL.

Definition readme_block (readme_content : string) : string :=
  "README.md:" +:+ NL +:+ "```" +:+ NL +:+ readme_content +:+ NL +:+ "```" +:+ NL +:+ NL.

Definition readme_url (owner repo : string) : string :=
  GITHUB_API_URL +:+ "/repos/" +:+ owner +:+ "/" +:+ repo +:+ "/contents/README.md".

Definition tree_url (owner repo : string) : string :=
  GITHUB_API_URL +:+ "/repos/" +:+ owner +:+ "/" +:+ repo
  +:+ "/git/trees/" +:+ "main" +:+ "?recursive=1".

Definition content_url (owner repo path : string) : string :=
  GITHUB_API_URL +:+ "/repos/" +:+ owner +:+ "/" +:+ repo +:+ "/contents/" +:+ path.

Definition tree_record_file (cache_dir owner repo : string) : string :=
  path_join cache_dir (owner +:+ "_" +:+ repo +:+ "_tree.json").

(** Lines 85 to 91: the [try] around the README fetch. *)
Definition fetch_readme (fuel : nat) (owner repo : string) (token : option string)
    (cache_dir : string) : M string :=
  try_except
    (readme_info <- fetch_repo_content fuel (readme_url owner repo) token cache_dir 100 ;;
     field <- lift (py_getitem readme_info "content") ;;
     readme_content <- lift (b64decode_value field) ;;
     ret (readme_block readme_content))
    is_RequestException
    (ret readme_placeholder).

(** Lines 107 to 110: the paths of the blobs with a supported file type. *)
Fixpoint select_paths (items : list pyval) : res (list string) :=
  match items with
  | [] => Ok []
  | item :: rest =>
      (ty <~ py_getitem item "type" ;;
       keep <~ (if py_eq ty (PStr "blob") then
                  p <~ py_getitem item "path" ;;
                  match p with
                  | PStr s => Ok (if has_supported_filetype s then [s] else [])
                  | _ => Raise AttributeError
                  end
                else Ok []) ;;
       more <~ select_paths rest ;;
       Ok (keep ++ more)%list)
  end.

(** Lines 112 to 115: the nested [load_file_content]. *)
Definition load_file_content (fuel : nat) (owner repo : string) (token : option string)
    (cache_dir path : string) : M string :=
  file_info <- fetch_repo_content fuel (content_url owner repo path) token cache_dir 100 ;;
  field <- lift (py_getitem file_info "content") ;;
  lift (b64decode_value field).

(** Lines 117 and 118: one block per path, appended in order. *)
Fixpoint append_blocks (fuel : nat) (owner repo : string) (token : option string)
    (cache_dir : string) (file_paths : list string) (formatted_string : string)
  : M string :=
  match file_paths with
  | [] => ret formatted_string
  | path :: rest =>
      content <- load_file_content fuel owner repo token cache_dir path ;;
      append_blocks fuel owner repo token cache_dir rest
        (formatted_string +:+ file_block path content)
  end.

(** Lines 98 to 104: is there a record of the tree with the same [sha]? *)
Definition tree_unchanged (cache_dir owner repo : string) (tree_info : pyval) : M bool :=
  let cache_file := tree_record_file cache_dir owner repo in
  recorded <- path_exists cache_file ;;
  if recorded then
    cached_tree_info <- json_load cache_file ;;
    old_sha <- lift (py_getitem cached_tree_info "sha") ;;
    new_sha <- lift (py_getitem tree_info "sha") ;;
    ret (py_eq old_sha new_sha)
  else ret false.

(** Lines 106 to 123: aggregation of the file contents and the update of
    the record. *)
Definition aggregate_files (fuel : nat) (owner repo : string) (token : option string)
    (cache_dir : string) (tree_info : pyval) (formatted_string : string) : M string :=
  tree <- lift (py_getitem tree_info "tree") ;;
  items <- lift (py_iter tree) ;;
  file_paths <- lift (select_paths items) ;;
  formatted_string <-
    append_blocks fuel owner repo token cache_dir file_paths formatted_string ;;
  json_dump tree_info (tree_record_file cache_dir owner repo) ;;;
  ret formatted_string.

(** Lines 93 to 123: everything after the README. *)
Definition process_tree (fuel : nat) (owner repo : string) (token : option string)
    (cache_dir : string) (formatted_string : string) : M string :=
  tree_info <- fetch_repo_content fuel (tree_url owner repo) token cache_dir 100 ;;
  unchanged <- tree_unchanged cache_dir owner repo tree_info ;;
  if unchanged then ret formatted_string
  else aggregate_files fuel owner repo token cache_dir tree_info formatted_string.

Definition process_github_repo (fuel : nat) (owner repo : string)
    (token : option string) (cache_dir : string) : M string :=
  formatted_string <- fetch_readme fuel owner repo token cache_dir ;;
  process_tree fuel owner repo token cache_dir formatted_string.

End Remote.

(** ** The local folder *)

(** A directory as [os.scandir] lists it: the regular files with their
    text ([None] for a file that is not valid UTF-8) and the
    sub-directories, each list in listing order. *)
Inductive dir_tree : Type :=
  | Dir (dir_files : list (string * option string))
        (dir_subdirs : list (string * dir_tree)).

(** The scanned part of the file system: the tree found at [fs_root]. *)
Record localfs : Type := LocalFs {
  fs_root : string;
  fs_tree : dir_tree
}.

(** The recursion of [os.walk] into the sub-directories of [root] that
    the assignment to [dirs[:]] has kept, in listing order; [walk] is the
    walk of one sub-directory. *)
Definition walk_dirs (walk : string -> dir_tree -> list string)
    (exclusions : list string) (root : string)
  : list (string * dir_tree) -> list string :=
  fix go (ds : list (string * dir_tree)) : list string :=
    match ds with
    | [] => []
    | (d, sub) :: ds' =>
        (if bool_decide (path_join root d ∈ exclusions) then []
         else walk (path_join root d) sub)
        ++ go ds'
    end.

(** [os.walk(root)] with the body of the loop of [get_folder_files]: the
    supported files of the directory, then the walk of each sub-directory
    that is not excluded. *)
Fixpoint walk_folder (exclusions : list string) (root : string) (t : dir_tree)
  : list string :=
  match t with
  | Dir fs ds =>
      map (fun f => path_join root (fst f))
          (filter (fun f => has_supported_filetype (fst f) = true) fs)
      ++ walk_dirs (walk_folder exclusions) exclusions root ds
  end.

(** A folder that is not there is walked as an empty one. *)
Definition get_folder_files (fs : localfs) (folder_path : string)
    (exclusions : list string) : list string :=
  if String.eqb folder_path (fs_root fs)
  then walk_folder exclusions folder_path (fs_tree fs)
  else [].

(** The directories the walk reaches from [root]: the root itself, and
    every sub-directory of a reached directory whose joined path is not in
    the exclusion set. *)
Inductive visits (exclusions : list string)
  : string -> dir_tree -> string -> dir_tree -> Prop :=
  | visits_root root t : visits exclusions root t root t
  | visits_sub root fs ds d sub dirpath t :
      (d, sub) ∈ ds →
      path_join root d ∉ exclusions →
      visits exclusions (path_join root d) sub dirpath t →
      visits exclusions root (Dir fs ds) dirpath t.

(** A supported file of a visited directory, by its joined path. *)
Definition enumerated (exclusions : list string) (root : string) (t : dir_tree)
    (path : string) : Prop :=
  ∃ dirpath dfiles dsubs name text,
    visits exclusions root t dirpath (Dir dfiles dsubs) ∧
    (name, text) ∈ dfiles ∧
    has_supported_filetype name = true ∧
    path = path_join dirpath name.

(** Every file of the tree with its path and text. *)
Fixpoint all_files (root : string) (t : dir_tree) : list (string * option string) :=
  match t with
  | Dir fs ds =>
      (map (fun f => (path_join root (fst f), snd f)) fs
       ++ (fix sub_files (ds : list (string * dir_tree)) :=
             match ds with
             | [] => []
             | (d, sub) :: ds' => all_files (path_join root d) sub ++ sub_files ds'
             end) ds)%list
  end.

Fixpoint assoc {A} (k : string) (l : list (string * A)) : option A :=
  match l with
  | [] => None
  | (k', v) :: rest => if String.eqb k' k then Some v else assoc k rest
  end.

Definition get_file_content (fs : localfs) (file_path : string) : res string :=
  match assoc file_path (all_files (fs_root fs) (fs_tree fs)) with
  | Some (Some text) => Ok text
  | Some None => Raise (ValueError "utf-8")
  | None => Raise (FileNotFoundError file_path)
  end.

Definition process_file (fs : localfs) (file_path : string) : res string :=
  (content <~ get_file_content fs file_path ;;
   Ok (file_block file_path content))%py.

(** *** [multiprocessing.Pool.imap]

    The iterator that [imap] returns keeps the index of the next result to
    append, the results appended so far in the order [next] hands them out
    ([it_items] keeps also those already handed out) and the results that
    came in ahead of their turn. *)
Record imap_iterator (B : Type) : Type := IMapIterator {
  it_index : nat;
  it_items : list (res B);
  it_unsorted : gmap nat (res B)
}.
Arguments IMapIterator {B}.
Arguments it_index {B}.
Arguments it_items {B}.
Arguments it_unsorted {B}.

(** The loop [while self._index in self._unsorted] of [IMapIterator._set].
    Each turn pops one entry, so as many turns as there are entries
    suffice. *)
Fixpoint imap_drain {B} (turns : nat) (it : imap_iterator B) : imap_iterator B :=
  match turns with
  | O => it
  | S turns' =>
      match it_unsorted it !! it_index it with
      | Some obj =>
          imap_drain turns'
            (IMapIterator (S (it_index it)) (it_items it ++ [obj])
                          (delete (it_index it) (it_unsorted it)))
      | None => it
      end
  end.

(** [IMapIterator._set(i, obj)]: a worker has finished job [i]. *)
Definition imap_set {B} (i : nat) (obj : res B) (it : imap_iterator B)
  : imap_iterator B :=
  if Nat.eqb (it_index it) i then
    imap_drain (size (it_unsorted it))
      (IMapIterator (S (it_index it)) (it_items it ++ [obj]) (it_unsorted it))
  else
    IMapIterator (it_index it) (it_items it) (<[i := obj]> (it_unsorted it)).

(** [list(iterator)]: the results in the order [next] hands them out, up to
    the first one that is an exception, which [next] raises again; a result
    that never comes is waited for without end. *)
Fixpoint imap_collect {B} (n : nat) (items : list (res B)) : res (list B) :=
  match n with
  | O => Ok []
  | S n' =>
      match items with
      | [] => Diverge
      | obj :: items' =>
          (x <~ obj ;; xs <~ imap_collect n' items' ;; Ok (x :: xs))%py
      end
  end.

(** [list(pool.imap(func, iterable))] when the jobs finish in the order
    [completion], a list of job indices. *)
Definition pool_imap {A B} (completion : list nat) (func : A -> res B)
    (iterable : list A) : res (list B) :=
  let finish it i :=
    match iterable !! i with
    | Some x => imap_set i (func x) it
    | None => it
    end in
  let it := fold_left finish completion (IMapIterator 0 [] ∅) in
  imap_collect (length iterable) (it_items it).

(** The completion orders a pool of [workers] processes can produce for
    [n] jobs: every job finishes once, and a job finishes only after it
    was started, which needs a free worker. *)
Definition completion_order (workers n : nat) (completion : list nat) : Prop :=
  Permutation completion (seq 0 n) ∧
  ∀ k i, completion !! k = Some i → (i < k + workers)%nat.

(** What holds of the iterator before the loop of [_set] has run, when the
    jobs [finished] have come in: the results before [it_index] are handed
    out in order, the others wait in [it_unsorted]. *)
Record imap_sorted {B} (results : list (res B)) (finished : list nat)
    (it : imap_iterator B) : Prop := {
  sorted_valid : ∀ j, j ∈ finished → (j < length results)%nat;
  sorted_below : ∀ j, (j < it_index it)%nat → j ∈ finished;
  sorted_items : it_items it = take (it_index it) results;
  sorted_waiting : ∀ j,
    it_unsorted it !! j =
    if decide (j ∈ finished ∧ (it_index it <= j)%nat) then results !! j else None
}.

(** Between two calls of [_set], moreover, the job [it_index] is missing. *)
Definition imap_inv {B} (results : list (res B)) (finished : list nat)
    (it : imap_iterator B) : Prop :=
  imap_sorted results finished it ∧ it_index it ∉ finished.

(** [''.join(parts)] *)
Definition str_join (parts : list string) : string :=
  String.concat EmptyString parts.

Definition process_folder (fs : localfs) (completion : list nat)
    (folder_path : string) (exclusions : list string) : res string :=
  let file_paths := get_folder_files fs folder_path exclusions in
  (file_contents <~ pool_imap completion (process_file fs) file_paths ;;
   Ok (str_join file_contents))%py.

(** The sequential reading of [process_folder]: [process_file] on each
    path in enumeration order, the blocks concatenated. *)
Fixpoint map_res {A B} (f : A -> res B) (l : list A) : res (list B) :=
  match l with
  | [] => Ok []
  | x :: l' => (y <~ f x ;; ys <~ map_res f l' ;; Ok (y :: ys))%py
  end.

Definition process_folder_sequential (fs : localfs) (folder_path : string)
    (exclusions : list string) : res string :=
  (blocks <~ map_res (process_file fs) (get_folder_files fs folder_path exclusions) ;;
   Ok (str_join blocks))%py.

(** ** Scenarios *)

(** A library that accepts every host in balanced brackets. *)
Definition lenient_brackets (_ : string) : option string := None.

Definition empty_world : world := World ∅ ∅ [].

Definition issues_url : string := "https://api.github.com/repos/o/r/issues".

(** The items [start], [start + 1], ... of a collection, [count] of them. *)
Definition numbered (start count : nat) : list pyval :=
  map (fun i => PInt (Z.of_nat i)) (seq start count).

Definition issue_pages : list (list pyval) :=
  [numbered 0 100; numbered 100 100; numbered 200 37].

(** A simulated API with pages of sizes 100, 100 and 37. *)
Definition paged_server (_ : list request) (rq : request) : response :=
  if String.eqb (req_url rq) (paginated_url issues_url 100 1)
  then Response 200 (PList (numbered 0 100))
  else if String.eqb (req_url rq) (paginated_url issues_url 100 2)
  then Response 200 (PList (numbered 100 100))
  else if String.eqb (req_url rq) (paginated_url issues_url 100 3)
  then Response 200 (PList (numbered 200 37))
  else Response 404 PNone.

(** A simulated API whose second page fails. *)
Definition failing_server (_ : list request) (rq : request) : response :=
  if String.eqb (req_url rq) (paginated_url issues_url 100 1)
  then Response 200 (PList (numbered 0 100))
  else Response 500 PNone.

(** An endpoint for one file: the same object, whatever the page asked. *)
Definition object_server (_ : list request) (_ : request) : response :=
  Response 200 (PDict [("name", PStr "README.md"); ("content", PStr "Yg==")]).

(** A remote side that knows nothing. *)
Definition not_found_server (_ : list request) (_ : request) : response :=
  Response 404 PNone.

(** The decoder on the two encoded texts of the scenarios. *)
Definition scenario_b64decode (s : string) : res string :=
  if String.eqb s "YQ==" then Ok "a"
  else if String.eqb s "Yg==" then Ok "b"
  else Raise (ValueError "Incorrect padding").

Definition scenario_tree : pyval :=
  PDict [("sha", PStr "4b825dc");
         ("tree", PList [PDict [("path", PStr "a.py"); ("type", PStr "blob")];
                         PDict [("path", PStr "logo.png"); ("type", PStr "blob")];
                         PDict [("path", PStr "src"); ("type", PStr "tree")]])].

(** A cache that holds the tree descriptor and the file [a.py]. *)
Definition cached_world : world :=
  World (<[cache_file_of ".cache" (tree_url "o" "r") := scenario_tree]>
         (<[cache_file_of ".cache" (content_url "o" "r" "a.py")
            := PDict [("content", PStr "YQ==")]]> ∅))
        {[".cache"]} [].

(** The same cache with the README and the record of the tree. *)
Definition recorded_world : world :=
  World (<[tree_record_file ".cache" "o" "r" := scenario_tree]>
         (<[cache_file_of ".cache" (readme_url "o" "r")
            := PDict [("content", PStr "Yg==")]]> (files cached_world)))
        {[".cache"]} [].

(** The API for a repository without a README: the tree endpoint answers
    with the descriptor, an object; nothing else is found. *)
Definition tree_server (_ : list request) (rq : request) : response :=
  if String.eqb (req_url rq) (paginated_url (tree_url "o" "r") 100 1)
  then Response 200 scenario_tree
  else Response 404 PNone.

(** A cache directory that holds the record of the tree and nothing else. *)
Definition record_only_world : world :=
  World (<[tree_record_file ".cache" "o" "r" := scenario_tree]> ∅) {[".cache"]} [].

Definition scenario_folder : localfs :=
  LocalFs "proj"
    (Dir [("a.py", Some "x"); ("b.txt", Some "y")]
         [("docs", Dir [("index.md", Some "z")] []);
          ("src", Dir [("main.js", Some "w")] [])]).

(** ** Well-formed remote data *)

(** An entry of a tree descriptor with the given path and type, whatever
    its other fields and their order. *)
Definition tree_entry (item : pyval) (path ty : string) : Prop :=
  ∃ entries,
    item = PDict entries ∧
    dict_get "type" entries = Some (PStr ty) ∧
    dict_get "path" entries = Some (PStr path).

(** The paths that [select_paths] is to keep, from the paths and types of
    the entries. *)
Definition blob_paths (described : list (string * string)) : list string :=
  map fst
    (filter (fun d => snd d = "blob" ∧ has_supported_filetype (fst d) = true) described).

(** The cache holds the answer for the file [path], and this answer
    decodes to [text]. *)
Definition cached_content (b64decode_utf8 : string -> res string)
    (cache_dir owner repo : string) (fs : gmap string pyval) (path text : string)
  : Prop :=
  ∃ file_info field,
    fs !! cache_file_of cache_dir (content_url owner repo path) = Some file_info ∧
    py_getitem file_info "content" = Ok field ∧
    b64decode_value b64decode_utf8 field = Ok text.

(** A name that can stand as one segment of a URL path: not empty, free
    of the characters that end a segment, a path or its parameters, and
    free of the tab, the carriage return and the line feed, which
    [urlsplit] removes. *)
Definition url_segment (s : string) : Prop :=
  s <> EmptyString ∧
  str_mem "/" s = false ∧ str_mem "?" s = false ∧
  str_mem "#" s = false ∧ str_mem ";" s = false ∧
  str_mem "009" s = false ∧ str_mem "010" s = false ∧ str_mem "013" s = false.

(** ** [main] and its helpers *)

(** [c.isspace()] for a character below 256. *)
Definition is_py_space (c : ascii) : bool :=
  let n := nat_of_ascii c in
  ((9 <=? n) && (n <=? 13) || (28 <=? n) && (n <=? 32)
   || (n =? 133) || (n =? 160))%nat.

Fixpoint lstrip_space (s : string) : string :=
  match s with
  | String a s' => if is_py_space a then lstrip_space s' else s
  | EmptyString => EmptyString
  end.

Fixpoint rstrip_space (s : string) : string :=
  match s with
  | EmptyString => EmptyString
  | String a s' =>
      match rstrip_space s' with
      | EmptyString => if is_py_space a then EmptyString else String a EmptyString
      | r => String a r
      end
  end.

(** [s.strip()] *)
Definition py_strip (s : string) : string := rstrip_space (lstrip_space s).

(** What [subprocess.run] returns, as far as [extract_git_url] reads it. *)
Record completed_process : Type := CompletedProcess {
  returncode : Z;
  stdout : string
}.

(** [extract_git_url], from the result of [git config --get
    remote.origin.url]. *)
Definition extract_git_url (result : completed_process) : option string :=
  if returncode result =? 0 then Some (py_strip (stdout result)) else None.

(** What a run of [main] ends with: a document saved under a name, or a
    message on the console. *)
Inductive report : Type :=
  | Saved (output_file_name text : string)
  | Printed (message : string).

Section Main.

Variable bracketed_netloc_error : string -> option string.
Variable server : list request -> request -> response.
Variable b64decode_utf8 : string -> res string.

Local Open Scope py_scope.

(** Lines 138 to 144, and again 153 to 159: resolve, aggregate, save. *)
Definition save_github_repo (fuel : nat) (git_url : string) (token : option string)
  : M report :=
  names <- lift (parse_github_url bracketed_netloc_error git_url) ;;
  let owner := fst names in
  let repo := snd names in
  formatted_repo_info <-
    process_github_repo server b64decode_utf8 fuel owner repo token ".cache" ;;
  ret (Saved (repo +:+ "-formatted-prompt.txt") formatted_repo_info).

(** The mode [GitHub Auto]; [is_git_repo] is what [check_if_git_repo]
    finds and [result] what [git] answers. *)
Definition main_github_auto (fuel : nat) (is_git_repo : bool)
    (result : completed_process) (token : option string) : M report :=
  if is_git_repo then
    match extract_git_url result with
    | Some git_url =>
        if String.eqb git_url "" then ret (Printed "GitHub URL could not be extracted.")
        else save_github_repo fuel git_url token
    | None => ret (Printed "GitHub URL could not be extracted.")
    end
  else ret (Printed "Not a valid git repository.").

(** The mode [GitHub URL]: the same steps inside [try ... except
    ValueError as e: print(e)]. *)
Definition main_github_url (fuel : nat) (git_url : string) (token : option string)
  : M report :=
  fun w =>
    match save_github_repo fuel git_url token w with
    | (Raise (ValueError msg), w') => (Ok (Printed msg), w')
    | other => other
    end.

End Main.

(** The mode [Folder Scan]; [line] is what is typed at the prompt for the
    directories to exclude. *)
Definition main_folder_scan (fs : localfs) (completion : list nat)
    (folder_path line : string) : res report :=
  let exclusions :=
    map (fun e => path_join folder_path (py_strip e)) (split_on "," line) in
  (formatted_folder_info <~ process_folder fs completion folder_path exclusions ;;
   Ok (Saved "folder-formatted-prompt.txt" formatted_folder_info))%py.

(** A tree whose directory names are not empty and do not end in a slash,
    as the names of a file system are. *)
Inductive proper_names : dir_tree -> Prop :=
  | proper_dir fs ds :
      Forall (fun e => fst e <> EmptyString ∧ endswith (fst e) "/" = false ∧
                       proper_names (snd e)) ds →
      proper_names (Dir fs ds).

(** An exclusion that no joined path can be: empty, or ending in a slash. *)
Definition dead_exclusion (x : string) : Prop :=
  x = EmptyString ∨ endswith x "/" = true.

(** The requests a run may make for a repository: those under the address
    of the repository in the API, with the headers of the run. *)
Definition repo_request (owner repo : string) (token : option string)
    (rq : request) : Prop :=
  startswith (GITHUB_API_URL +:+ "/repos/" +:+ owner +:+ "/" +:+ repo +:+ "/")
             (req_url rq) = true ∧
  req_headers rq = request_headers token.

(** From [w] to [w'] only requests with the property [P] were made. *)
Definition requests_within (P : request -> Prop) (w w' : world) : Prop :=
  ∃ new, log w' = log w ++ new ∧ Forall P new.

(** ** Further scenarios *)

(** The paths and types of the entries of [scenario_tree]. *)
Definition scenario_described : list (string * string) :=
  [("a.py", "blob"); ("logo.png", "blob"); ("src", "tree")].

Definition scenario_items : list pyval :=
  [PDict [("path", PStr "a.py"); ("type", PStr "blob")];
   PDict [("path", PStr "logo.png"); ("type", PStr "blob")];
   PDict [("path", PStr "src"); ("type", PStr "tree")]].

(** A cache whose README entry is a list, as an earlier run has stored it. *)
Definition stale_world : world :=
  World (<[cache_file_of ".cache" (readme_url "o" "r")
           := PList [PStr "name"; PStr "content"]]> ∅)
        {[".cache"]} [].

(** The cache of [recorded_world] with a record that has lost its [sha]. *)
Definition broken_record_world : world :=
  World (<[tree_record_file ".cache" "o" "r" := PDict [("tree", PList [])]]>
         (files recorded_world))
        {[".cache"]} [].

(** A folder with a file that is not valid UTF-8 between two that are. *)
Definition unreadable_folder : localfs :=
  LocalFs "proj"
    (Dir [("a.py", Some "x"); ("b.py", None); ("c.py", Some "z")] []).

(** * Properties *)

(** ** Splitting and stripping *)

Section Segments.

Variable sep : ascii.

Lemma split_on_cons (s : string) :
  ∃ seg rest, split_on sep s = seg :: rest.
Proof.
  destruct s as [|a s]; simpl; [by eauto|].
  destruct (Ascii.eqb a sep); [by eauto|].
  destruct (split_on sep s); eauto.
Qed.

Lemma split_on_String_ne (a : ascii) (s seg : string) (rest : list string) :
  Ascii.eqb a sep = false →
  split_on sep s = seg :: rest →
  split_on sep (String a s) = String a seg :: rest.
Proof. intros Ha Hs. simpl. by rewrite Ha, Hs. Qed.

Lemma filter_replicate_empty (k : nat) :
  filter nonempty (replicate k EmptyString) = [].
Proof.
  induction k as [|k IH]; simpl; [done|].
  rewrite filter_cons_False; [done | by intros H; apply H].
Qed.

(** Leading separators only add empty segments in front. *)
Lemma split_on_lstrip (s : string) :
  filter nonempty (split_on sep (lstrip_char sep s))
  = filter nonempty (split_on sep s).
Proof.
  induction s as [|a s IH]; [done|].
  simpl. destruct (Ascii.eqb a sep) eqn:Ha; [|by simpl; rewrite Ha].
  rewrite filter_cons_False; [done | by intros H; apply H].
Qed.

(** Trailing separators only add empty segments at the end. *)
Lemma split_on_rstrip (s : string) :
  ∃ k, split_on sep s = split_on sep (rstrip_char sep s) ++ replicate k EmptyString.
Proof.
  induction s as [|a s [k IH]]; [by exists 0%nat|].
  simpl. destruct (rstrip_char sep s) as [|b r] eqn:Hr.
  - simpl in IH. destruct (Ascii.eqb a sep) eqn:Ha.
    + exists (S k). by rewrite IH.
    + exists k. simpl. by rewrite Ha, IH.
  - destruct (Ascii.eqb a sep) eqn:Ha.
    + exists k. simpl. by rewrite Ha, IH.
    + exists k. destruct (split_on_cons (String b r)) as (seg & rest & Hseg).
      rewrite Hseg in IH. rewrite IH.
      by rewrite (split_on_String_ne a _ seg rest Ha Hseg).
Qed.

Lemma split_on_strip (s : string) :
  filter nonempty (split_on sep (strip_char sep s))
  = filter nonempty (split_on sep s).
Proof.
  unfold strip_char. rewrite <- (split_on_lstrip s).
  destruct (split_on_rstrip (lstrip_char sep s)) as [k ->].
  by rewrite filter_app, filter_replicate_empty, app_nil_r.
Qed.

Lemma lstrip_no_lead (s : string) : no_lead sep (lstrip_char sep s).
Proof.
  induction s as [|a s IH]; [done|].
  simpl. by destruct (Ascii.eqb a sep) eqn:Ha.
Qed.

Lemma rstrip_no_lead (s : string) : no_lead sep s → no_lead sep (rstrip_char sep s).
Proof.
  destruct s as [|a s]; [done|]. simpl. intros Ha.
  destruct (rstrip_char sep s); by rewrite ?Ha.
Qed.

Lemma rstrip_idemp (s : string) :
  rstrip_char sep (rstrip_char sep s) = rstrip_char sep s.
Proof.
  induction s as [|a s IH]; [done|].
  simpl. destruct (rstrip_char sep s) as [|b r] eqn:Hr.
  - destruct (Ascii.eqb a sep) eqn:Ha; [done|]. simpl. by rewrite Ha.
  - change (rstrip_char sep (String a (String b r))) with
      (match rstrip_char sep (String b r) with
       | EmptyString => if Ascii.eqb a sep then EmptyString else String a EmptyString
       | r' => String a r'
       end).
    by rewrite IH.
Qed.

Lemma split_on_head (s : string) :
  no_lead sep s → s <> EmptyString →
  ∃ seg rest, split_on sep s = seg :: rest ∧ nonempty seg.
Proof.
  destruct s as [|a s]; [done|]. simpl. intros Ha _. rewrite Ha.
  destruct (split_on sep s); eexists _, _; (split; [reflexivity | done]).
Qed.

Lemma split_on_last (s : string) :
  rstrip_char sep s = s → s <> EmptyString →
  ∃ seg, last (split_on sep s) = Some seg ∧ nonempty seg.
Proof.
  induction s as [|a s IH]; [done|]. intros Hs _.
  simpl in Hs. destruct (rstrip_char sep s) as [|b r] eqn:Hr.
  - destruct (Ascii.eqb a sep) eqn:Ha; [done|].
    injection Hs as <-. simpl. rewrite Ha. eexists; split; [reflexivity | done].
  - injection Hs as Hs. destruct IH as (seg & Hlast & Hne); [done | by rewrite <- Hs |].
    destruct (split_on_cons s) as (seg0 & rest & Hsplit).
    simpl. rewrite Hsplit in *. destruct (Ascii.eqb a sep).
    + exists seg. split; [|done]. by rewrite last_cons, Hlast.
    + destruct rest as [|seg1 rest].
      * exists (String a seg0). by split.
      * exists seg. split; [|done]. exact Hlast.
Qed.

Lemma filter_nonempty_last (l : list string) (seg : string) :
  last l = Some seg → nonempty seg → ∃ l', filter nonempty l = l' ++ [seg].
Proof.
  intros Hlast Hne. destruct l as [|x l _] using rev_ind; [done|].
  rewrite last_snoc in Hlast. injection Hlast as ->.
  exists (filter nonempty l). rewrite filter_app. f_equal.
  by rewrite filter_cons_True.
Qed.

End Segments.

(** ** Reference resolver *)

Example urlparse_path_https :
  urlparse_path lenient_brackets "https://github.com/martinmagala/repo2prompt"
  = Ok "/martinmagala/repo2prompt".
Proof. reflexivity. Qed.

Example urlparse_path_query :
  urlparse_path lenient_brackets "https://github.com/o/r/tree/main;v=1?tab=x#frag"
  = Ok "/o/r/tree/main".
Proof. reflexivity. Qed.

(** A blank in front of the URL is stripped before the scheme is read. *)
Example urlparse_path_leading_blank :
  urlparse_path lenient_brackets " https://github.com/a/b" = Ok "/a/b".
Proof. reflexivity. Qed.

Example parse_github_url_ok :
  parse_github_url lenient_brackets "https://github.com/martinmagala/repo2prompt.git"
  = Ok ("martinmagala", "repo2prompt.git").
Proof. reflexivity. Qed.

Example parse_github_url_short :
  parse_github_url lenient_brackets "https://github.com/martinmagala/"
  = Raise (ValueError "Invalid GitHub URL provided!").
Proof. reflexivity. Qed.

(** A tab inside a segment is removed. *)
Example parse_github_url_tab :
  parse_github_url lenient_brackets
    ("https://github.com/a" +:+ String "009" "b/r") = Ok ("ab", "r").
Proof. reflexivity. Qed.

Section ResolverProps.

Variable bracketed_netloc_error : string -> option string.

(** A bracket without its partner in the network location is refused,
    whatever the library thinks of hosts in brackets. *)
Example parse_github_url_open_bracket :
  parse_github_url bracketed_netloc_error "https://[/a/b"
  = Raise (ValueError "Invalid IPv6 URL").
Proof. reflexivity. Qed.

Lemma check_netloc_cases netloc :
  check_netloc bracketed_netloc_error netloc = Ok tt ∨
  ∃ msg, check_netloc bracketed_netloc_error netloc = Raise (ValueError msg).
Proof.
  unfold check_netloc.
  destruct (xorb _ _); [right; by eexists|].
  destruct (_ && _); [|by left].
  destruct (bracketed_netloc_error netloc); [right; by eexists | by left].
Qed.

(** [urlparse] returns a path or raises a [ValueError]. *)
Lemma urlparse_path_cases url :
  (∃ path, urlparse_path bracketed_netloc_error url = Ok path) ∨
  (∃ msg, urlparse_path bracketed_netloc_error url = Raise (ValueError msg)).
Proof.
  unfold urlparse_path.
  destruct (split_scheme _) as [scheme rest]. unfold drop_netloc.
  destruct (startswith "//" rest); [|left; by eexists].
  destruct (check_netloc_cases (str_take (netloc_end (str_drop 2 rest)) (str_drop 2 rest)))
    as [-> | [msg ->]]; [left | right]; by eexists.
Qed.

Lemma parse_github_url_cases (url path : string) :
  urlparse_path bracketed_netloc_error url = Ok path →
  parse_github_url bracketed_netloc_error url =
  match split_on slash (strip_char slash path) with
  | owner :: name :: _ => Ok (owner, name)
  | _ => Raise (ValueError "Invalid GitHub URL provided!")
  end.
Proof.
  intros Hpath. unfold parse_github_url. rewrite Hpath. simpl.
  destruct (split_on slash (strip_char slash path)) as [|s0 [|s1 rest]];
    reflexivity.
Qed.

Lemma strip_char_shape (c : ascii) (s : string) :
  strip_char c s = EmptyString ∨
  ∃ first rest seg,
    split_on c (strip_char c s) = first :: rest ∧ nonempty first ∧
    last (first :: rest) = Some seg ∧ nonempty seg.
Proof.
  destruct (decide (strip_char c s = EmptyString)) as [|Hne]; [by left|right].
  destruct (split_on_head c (strip_char c s)) as (first & rest & Hsplit & Hfirst);
    [apply rstrip_no_lead, lstrip_no_lead | done |].
  destruct (split_on_last c (strip_char c s)) as (seg & Hlast & Hseg);
    [apply rstrip_idemp | done |].
  rewrite Hsplit in Hlast. by exists first, rest, seg.
Qed.

(** C5, amended.  When [urlparse] accepts the string, the resolver answers
    with the first two segments of the path stripped of its leading and
    trailing slashes.  When the path has at least two non-empty segments it
    succeeds: the owner is the first non-empty segment, and the name is the
    second non-empty segment unless a doubled slash follows the owner, in
    which case the name is empty.  When the path has fewer than two
    non-empty segments it raises the [ValueError] of the resolver.  When
    [urlparse] refuses the string, which it does with a [ValueError] for a
    network location whose square brackets do not balance or hold a host it
    rejects, the resolver raises that error.  There is no other outcome, and
    the resolver is a function of the string alone: it takes no [world], so
    it reaches neither the network nor the cache. *)
Theorem parse_github_url_segments (url : string) :
  (∀ path,
     urlparse_path bracketed_netloc_error url = Ok path →
     let segments := split_on slash (strip_char slash path) in
     let named := nonempty_segments path in
     ((2 <= length named)%nat →
        ∃ owner name rest,
          segments = owner :: name :: rest ∧
          parse_github_url bracketed_netloc_error url = Ok (owner, name) ∧
          named !! 0%nat = Some owner ∧
          (name <> EmptyString → named !! 1%nat = Some name)) ∧
     ((length named < 2)%nat →
        parse_github_url bracketed_netloc_error url
        = Raise (ValueError "Invalid GitHub URL provided!"))) ∧
  (∀ e,
     urlparse_path bracketed_netloc_error url = Raise e →
     (∃ msg, e = ValueError msg) ∧
     parse_github_url bracketed_netloc_error url = Raise e) ∧
  ((∃ path, urlparse_path bracketed_netloc_error url = Ok path) ∨
   (∃ msg, urlparse_path bracketed_netloc_error url = Raise (ValueError msg))).
Proof.
  split; [|split; [|apply urlparse_path_cases]].
  2: { intros e He. split.
       - destruct (urlparse_path_cases url) as [[path Hp] | [msg Hm]].
         + rewrite Hp in He. discriminate He.
         + rewrite Hm in He. injection He as <-. by eexists.
       - unfold parse_github_url. by rewrite He. }
  intros path Hpath segments named.
  assert (Hnamed : named = filter nonempty segments)
    by (symmetry; apply split_on_strip).
  clearbody named. subst named.
  rewrite (parse_github_url_cases url path Hpath). fold segments.
  destruct (strip_char_shape slash path)
    as [Hempty | (first & rest & seg & Hsplit & Hfirst & Hlast & Hseg)].
  - (* nothing is left of the path *)
    assert (Hsegs : segments = [EmptyString])
      by (unfold segments; by rewrite Hempty).
    clearbody segments. subst segments.
    rewrite filter_cons_False, filter_nil by (by intros H; apply H).
    split; [simpl; lia | done].
  - fold segments in Hsplit. clearbody segments. subst segments.
    rewrite filter_cons_True by done.
    destruct rest as [|name rest].
    + rewrite filter_nil. split; [simpl; lia | done].
    + split.
      * intros _. exists first, name, rest.
        do 3 (split; [done|]). intros Hname.
        by rewrite filter_cons_True.
      * intros Hshort. exfalso.
        destruct (filter_nonempty_last (name :: rest) seg) as [l' Hl']; [done..|].
        rewrite Hl' in Hshort. simpl in Hshort.
        rewrite length_app in Hshort. simpl in Hshort. lia.
Qed.

End ResolverProps.

(** The claim as the specification words it fails on a doubled slash: the
    path of [https://github.com/a//b] has the non-empty segments [a] and
    [b], and the resolver answers [a] with an empty name. *)
Lemma parse_github_url_double_slash :
  ¬ (∀ bracketed_netloc_error url path owner name rest,
       urlparse_path bracketed_netloc_error url = Ok path →
       nonempty_segments path = owner :: name :: rest →
       parse_github_url bracketed_netloc_error url = Ok (owner, name)).
Proof.
  intros H.
  specialize (H lenient_brackets "https://github.com/a//b" "/a//b" "a" "b" []
                eq_refl eq_refl).
  vm_compute in H. discriminate H.
Qed.

(** The URL of this repository, and a URL that [urlparse] refuses. *)
Lemma parse_github_url_segments_witness :
  urlparse_path lenient_brackets "https://github.com/martinmagala/repo2prompt"
  = Ok "/martinmagala/repo2prompt" ∧
  (2 <= length (nonempty_segments "/martinmagala/repo2prompt"))%nat ∧
  (∃ owner name rest,
     split_on slash (strip_char slash "/martinmagala/repo2prompt")
     = owner :: name :: rest ∧
     parse_github_url lenient_brackets "https://github.com/martinmagala/repo2prompt"
     = Ok (owner, name) ∧
     nonempty_segments "/martinmagala/repo2prompt" !! 0%nat = Some owner ∧
     (name <> EmptyString →
      nonempty_segments "/martinmagala/repo2prompt" !! 1%nat = Some name)) ∧
  urlparse_path lenient_brackets "https://[/a/b" = Raise (ValueError "Invalid IPv6 URL") ∧
  (∃ msg, ValueError "Invalid IPv6 URL" = ValueError msg) ∧
  parse_github_url lenient_brackets "https://[/a/b" = Raise (ValueError "Invalid IPv6 URL").
Proof.
  split; [reflexivity|]. split; [vm_compute; lia|]. split.
  - apply (proj1 (proj1 (parse_github_url_segments lenient_brackets
                           "https://github.com/martinmagala/repo2prompt")
                    "/martinmagala/repo2prompt" eq_refl)).
    vm_compute; lia.
  - split; [reflexivity|].
    apply (proj1 (proj2 (parse_github_url_segments lenient_brackets "https://[/a/b"))
             (ValueError "Invalid IPv6 URL") eq_refl).
Defined.

(** ** Cache keys *)

Lemma append_cons (a : ascii) (s t : string) :
  String a s +:+ t = String a (s +:+ t).
Proof. reflexivity. Qed.

Lemma length_append (s t : string) :
  String.length (s +:+ t) = (String.length s + String.length t)%nat.
Proof.
  induction s as [|a s IH]; [done|].
  rewrite append_cons. simpl. by rewrite IH.
Qed.

Lemma append_assoc (s t u : string) : (s +:+ t) +:+ u = s +:+ (t +:+ u).
Proof.
  induction s as [|a s IH]; [done|].
  rewrite !append_cons. by f_equal.
Qed.


Lemma replace_char_no_lead (a b : ascii) (s t : string) :
  a <> b → no_lead a t → t <> EmptyString → no_lead a (replace_char a b s +:+ t).
Proof.
  intros Hab Ht Hne. destruct s as [|c s]; simpl.
  - done.
  - destruct (Ascii.eqb c a) eqn:Hc; [|done].
    apply Ascii.eqb_neq. congruence.
Qed.

Lemma startswith_sep (c : ascii) (s : string) :
  no_lead c s → s <> EmptyString → startswith (String c EmptyString) s = false.
Proof.
  destruct s as [|a s]; [done|]. simpl. intros Ha _.
  by rewrite Ascii.eqb_sym, Ha.
Qed.

(** Joining a directory and a name that does not start with a slash puts
    the name, unchanged, after a prefix that depends on the directory only. *)
Lemma path_join_relative (dir name : string) :
  startswith "/" name = false →
  path_join dir name =
  (if String.eqb dir "" || endswith dir "/" then dir else dir +:+ "/") +:+ name.
Proof.
  intros Hname. unfold path_join. rewrite Hname.
  destruct (String.eqb dir "" || endswith dir "/"); [done|].
  by rewrite append_assoc.
Qed.

Lemma cache_file_of_prefix (cache_dir url : string) :
  cache_file_of cache_dir url =
  (if String.eqb cache_dir "" || endswith cache_dir "/"
   then cache_dir else cache_dir +:+ "/")
  +:+ (replace_char slash underscore url +:+ ".json").
Proof.
  apply path_join_relative, (startswith_sep slash); [|by destruct url].
  by apply replace_char_no_lead.
Qed.






(** ** Paginated fetch client *)

Section Fetch.

Variable server : list request -> request -> response.

Lemma page_requests_S url headers per_page start n :
  page_requests url headers per_page start (S n)
  = page_request url headers per_page start
    :: page_requests url headers per_page (start + 1) n.
Proof.
  unfold page_requests. simpl. rewrite Z.add_0_r. f_equal.
  rewrite <- seq_shift, map_map. apply map_ext. intros i.
  f_equal. lia.
Qed.

(** One turn of the loop, case by case. *)
Lemma fetch_pages_step fuel url headers per_page page all_items w :
  fetch_pages server (S fuel) url headers per_page page all_items w =
  let rq := page_request url headers per_page page in
  let w1 := World (files w) (dirs w) (log w ++ [rq]) in
  match server (log w) rq with
  | NoResponse => (Raise (ConnectionError (req_url rq)), w1)
  | Response status body =>
      match raise_for_status (req_url rq) status with
      | Ok _ =>
          match py_iter body, py_len body with
          | Ok added, Ok n =>
              if n <? per_page then (Ok (all_items ++ added), w1)
              else fetch_pages server fuel url headers per_page (page + 1)
                     (all_items ++ added) w1
          | Ok _, Raise e => (Raise e, w1)
          | Ok _, Diverge => (Diverge, w1)
          | Raise e, _ => (Raise e, w1)
          | Diverge, _ => (Diverge, w1)
          end
      | Raise e => (Raise e, w1)
      | Diverge => (Diverge, w1)
      end
  end.
Proof.
  simpl. unfold bind, requests_get, lift, page_request. simpl.
  destruct (server _ _) as [|status body]; [done|]. simpl.
  destruct (raise_for_status _ _); [|done..].
  destruct (py_iter body); [|done..].
  destruct (py_len body); [|done..].
  by destruct (_ <? _).
Qed.

(** The loop touches nothing but the request log, which it extends. *)
Lemma fetch_pages_world fuel url headers per_page page all_items w r w' :
  fetch_pages server fuel url headers per_page page all_items w = (r, w') →
  files w' = files w ∧ dirs w' = dirs w ∧ ∃ new, log w' = log w ++ new.
Proof.
  revert page all_items w.
  induction fuel as [|fuel IH]; intros page all_items w H.
  { injection H as <- <-. repeat split. exists []. by rewrite app_nil_r. }
  rewrite fetch_pages_step in H. cbv zeta in H.
  set (rq := page_request url headers per_page page) in *.
  assert (Hstop : ∀ (x : res (list pyval)),
             (x, World (files w) (dirs w) (log w ++ [rq])) = (r, w') →
             files w' = files w ∧ dirs w' = dirs w ∧ ∃ new, log w' = log w ++ new).
  { intros x Hx. injection Hx as <- <-. repeat split. by exists [rq]. }
  destruct (server (log w) rq) as [|status body]; [by eapply Hstop|].
  destruct (raise_for_status _ _); [|by eapply Hstop..].
  destruct (py_iter body); [|by eapply Hstop..].
  destruct (py_len body); [|by eapply Hstop..].
  destruct (_ <? _); [by eapply Hstop|].
  apply IH in H as (Hf & Hd & new & Hl). simpl in *.
  repeat split; [done..|]. exists (rq :: new).
  by rewrite Hl, <- app_assoc.
Qed.


(** A call that finds its cache file returns what the file holds and
    does nothing else. *)
Lemma fetch_repo_content_cached fuel url token cache_dir per_page w v :
  files w !! cache_file_of cache_dir url = Some v →
  fetch_repo_content server fuel url token cache_dir per_page w = (Ok v, w).
Proof.
  intros Hhit. unfold fetch_repo_content, bind, path_exists, json_load.
  rewrite Hhit. rewrite bool_decide_eq_true_2 by (by eexists).
  by rewrite Hhit.
Qed.

(** A call that finds no cache file runs the loop, then writes the file. *)
Lemma fetch_repo_content_uncached fuel url token cache_dir per_page w :
  files w !! cache_file_of cache_dir url = None →
  fetch_repo_content server fuel url token cache_dir per_page w =
  match fetch_pages server fuel url (request_headers token) per_page 1 [] w with
  | (Ok all_items, w1) =>
      if String.eqb cache_dir ""
      then (Raise (FileNotFoundError cache_dir), w1)
      else
        (Ok (PList all_items),
         World (<[cache_file_of cache_dir url := PList all_items]> (files w1))
               ({[cache_dir]} ∪ dirs w1) (log w1))
  | (Raise e, w1) => (Raise e, w1)
  | (Diverge, w1) => (Diverge, w1)
  end.
Proof.
  intros Hmiss. unfold fetch_repo_content, bind at 1, path_exists.
  rewrite Hmiss. rewrite bool_decide_eq_false_2 by (by intros [? ?]).
  unfold bind at 1.
  destruct (fetch_pages _ _ _ _ _ _ _ _) as [[all_items|e|] w1]; try done.
  unfold bind, makedirs. by destruct (String.eqb cache_dir "").
Qed.



(** *** Errors and the cache *)

Lemma raise_for_status_bad url status :
  400 <= status < 600 → raise_for_status url status = Raise (HTTPError status url).
Proof.
  intros [Hlo Hhi]. unfold raise_for_status.
  apply Z.leb_le in Hlo. apply Z.ltb_lt in Hhi. by rewrite Hlo, Hhi.
Qed.

(** A request of the loop that is answered with a status from 400 to 599
    is its last one, and the loop ends with the [HTTPError] for it. *)
Lemma fetch_pages_bad_status fuel url headers per_page :
  ∀ page all_items w r w' j rq status body,
    fetch_pages server fuel url headers per_page page all_items w = (r, w') →
    (length (log w) <= j)%nat →
    log w' !! j = Some rq →
    server (take j (log w')) rq = Response status body →
    400 <= status < 600 →
    r = Raise (HTTPError status (req_url rq)).
Proof.
  induction fuel as [|fuel IH];
    intros page all_items w r w' j rq status body Hrun Hj Hrq Hrsp Hbad.
  { injection Hrun as <- <-. apply lookup_lt_Some in Hrq. lia. }
  pose proof Hrun as Hstep. rewrite fetch_pages_step in Hstep. cbv zeta in Hstep.
  set (rq0 := page_request url headers per_page page) in *.
  (* the request at position [length (log w)] is [rq0], answered after [log w] *)
  assert (Hfirst : j = length (log w) →
            server (log w) rq0 = Response status body ∧ rq = rq0).
  { intros ->. apply fetch_pages_world in Hrun as (_ & _ & new & Hlog).
    assert (Hw1 : ∃ new', log w' = log w ++ rq0 :: new').
    { revert Hstep.
      destruct (server (log w) rq0) as [|st b];
        [intros [= <- <-]; by exists []|].
      destruct (raise_for_status _ _); [|intros [= <- <-]; by exists []..].
      destruct (py_iter b); [|intros [= <- <-]; by exists []..].
      destruct (py_len b); [|intros [= <- <-]; by exists []..].
      destruct (_ <? _); [intros [= <- <-]; by exists []|].
      intros (_ & _ & new' & Hl)%fetch_pages_world. simpl in Hl.
      exists new'. by rewrite Hl, <- app_assoc. }
    destruct Hw1 as [new' Hw1]. rewrite Hw1 in Hrq, Hrsp.
    rewrite take_app_length in Hrsp.
    rewrite list_lookup_middle in Hrq by done. by injection Hrq as <-. }
  (* a run that stops after [rq0] has issued no other request *)
  assert (Hstop : ∀ x : res (list pyval),
            (x, World (files w) (dirs w) (log w ++ [rq0])) = (r, w') →
            j = length (log w)).
  { intros x [= _ <-]. apply lookup_lt_Some in Hrq. simpl in Hrq.
    rewrite length_app in Hrq. simpl in Hrq. lia. }
  destruct (server (log w) rq0) as [|st b] eqn:Hsrv.
  { destruct (Hfirst (Hstop _ Hstep)) as [? _]. done. }
  destruct (raise_for_status (req_url rq0) st) as [[]|e|] eqn:Hst.
  - assert (Hgood : j = length (log w) → False).
    { intros Hjeq. destruct (Hfirst Hjeq) as [[= -> ->] ->].
      rewrite raise_for_status_bad in Hst by done. done. }
    destruct (py_iter b); [|by destruct Hgood; eapply Hstop..].
    destruct (py_len b); [|by destruct Hgood; eapply Hstop..].
    destruct (_ <? _); [by destruct Hgood; eapply Hstop|].
    eapply IH; [exact Hstep| |done..].
    simpl. rewrite length_app. simpl.
    destruct (decide (j = length (log w))); [by destruct Hgood | lia].
  - destruct (Hfirst (Hstop _ Hstep)) as [[= -> ->] ->].
    rewrite raise_for_status_bad in Hst by done.
    injection Hst as <-. by injection Hstep as <- _.
  - destruct (Hfirst (Hstop _ Hstep)) as [[= -> ->] ->].
    rewrite raise_for_status_bad in Hst by done. done.
Qed.

(** C10.  In an uncached call, a page request that is answered with a
    status from 400 to 599 ends the call with the [HTTPError] for that
    request, and the call leaves the files and the directories of the cache
    as they were: neither the cache directory is created nor a cache file
    written, whatever the earlier pages brought. *)
Theorem fetch_repo_content_error_keeps_cache
    fuel url token cache_dir per_page w r w' j rq status body :
  files w !! cache_file_of cache_dir url = None →
  fetch_repo_content server fuel url token cache_dir per_page w = (r, w') →
  (length (log w) <= j)%nat →
  log w' !! j = Some rq →
  server (take j (log w')) rq = Response status body →
  400 <= status < 600 →
  r = Raise (HTTPError status (req_url rq)) ∧
  files w' = files w ∧ dirs w' = dirs w.
Proof.
  intros Hmiss Hrun Hj Hrq Hrsp Hbad.
  rewrite fetch_repo_content_uncached in Hrun by done.
  destruct (fetch_pages _ _ _ _ _ _ _ _) as [r1 w1] eqn:Hpages.
  assert (Hr1 : log w' = log w1 → r1 = Raise (HTTPError status (req_url rq))).
  { intros Hlog. rewrite Hlog in Hrq, Hrsp.
    by eapply fetch_pages_bad_status. }
  apply fetch_pages_world in Hpages as (Hfiles & Hdirs & _).
  destruct r1 as [all_items|e|].
  - destruct (String.eqb cache_dir "");
      injection Hrun as <- <-; by specialize (Hr1 eq_refl).
  - injection Hrun as <- <-. specialize (Hr1 eq_refl). by injection Hr1 as ->.
  - injection Hrun as <- <-. by specialize (Hr1 eq_refl).
Qed.


(** *** A JSON object as body *)


(** What a call can change in the cache is its own cache file. *)
Lemma fetch_repo_content_frame fuel url token cache_dir per_page w r w' path :
  fetch_repo_content server fuel url token cache_dir per_page w = (r, w') →
  path <> cache_file_of cache_dir url →
  files w' !! path = files w !! path.
Proof.
  intros Hrun Hpath.
  destruct (files w !! cache_file_of cache_dir url) as [v|] eqn:Hfile.
  - rewrite (fetch_repo_content_cached _ _ _ _ _ _ v) in Hrun by done.
    by injection Hrun as _ <-.
  - rewrite fetch_repo_content_uncached in Hrun by done.
    destruct (fetch_pages _ _ _ _ _ _ _ _) as [r1 w1] eqn:Hpages.
    apply fetch_pages_world in Hpages as (Hfiles & _ & _).
    destruct r1; [destruct (String.eqb cache_dir "")|..];
      injection Hrun as _ <-; simpl; rewrite ?Hfiles; try done.
    by rewrite lookup_insert_ne.
Qed.

End Fetch.

(** ** Aggregator *)

Section Aggregator.

Variable server : list request -> request -> response.
Variable b64decode_utf8 : string -> res string.

(** The [try] of the README, by the outcome of the fetch. *)
Lemma fetch_readme_cases fuel owner repo token cache_dir w :
  fetch_readme server b64decode_utf8 fuel owner repo token cache_dir w =
  match fetch_repo_content server fuel (readme_url owner repo) token cache_dir 100 w with
  | (Ok readme_info, w1) =>
      match (field <~ py_getitem readme_info "content" ;;
             b64decode_value b64decode_utf8 field)%py with
      | Ok readme_content => (Ok (readme_block readme_content), w1)
      | Raise e =>
          if is_RequestException e then (Ok readme_placeholder, w1) else (Raise e, w1)
      | Diverge => (Diverge, w1)
      end
  | (Raise e, w1) =>
      if is_RequestException e then (Ok readme_placeholder, w1) else (Raise e, w1)
  | (Diverge, w1) => (Diverge, w1)
  end.
Proof.
  unfold fetch_readme, try_except, bind, lift, ret.
  destruct (fetch_repo_content _ _ _ _ _ _ _) as [[readme_info|e|] w1]; [|done..].
  destruct (py_getitem readme_info "content") as [field|e|]; simpl; [|done..].
  by destruct (b64decode_value b64decode_utf8 field).
Qed.

(** The comparison with the record reads the cache and changes nothing. *)
Lemma tree_unchanged_cases cache_dir owner repo tree_info w :
  tree_unchanged cache_dir owner repo tree_info w =
  (match files w !! tree_record_file cache_dir owner repo with
   | None => Ok false
   | Some cached_tree_info =>
       (old_sha <~ py_getitem cached_tree_info "sha" ;;
        new_sha <~ py_getitem tree_info "sha" ;;
        Ok (py_eq old_sha new_sha))%py
   end, w).
Proof.
  unfold tree_unchanged, bind, path_exists, json_load, lift, ret.
  destruct (files w !! tree_record_file cache_dir owner repo) as [cached|] eqn:Hrec.
  - rewrite bool_decide_eq_true_2 by (by eexists). rewrite Hrec.
    destruct (py_getitem cached "sha"); simpl; [|done..].
    by destruct (py_getitem tree_info "sha").
  - by rewrite bool_decide_eq_false_2 by (by intros [? ?]).
Qed.

(** The run, once the README and the tree descriptor are there. *)
Lemma process_github_repo_cases fuel owner repo token cache_dir w
    formatted_string w1 tree_info w2 :
  fetch_readme server b64decode_utf8 fuel owner repo token cache_dir w
  = (Ok formatted_string, w1) →
  fetch_repo_content server fuel (tree_url owner repo) token cache_dir 100 w1
  = (Ok tree_info, w2) →
  process_github_repo server b64decode_utf8 fuel owner repo token cache_dir w =
  match tree_unchanged cache_dir owner repo tree_info w2 with
  | (Ok true, _) => (Ok formatted_string, w2)
  | (Ok false, _) =>
      aggregate_files server b64decode_utf8 fuel owner repo token cache_dir
        tree_info formatted_string w2
  | (Raise e, _) => (Raise e, w2)
  | (Diverge, _) => (Diverge, w2)
  end.
Proof.
  intros Hreadme Htree.
  unfold process_github_repo, bind at 1. rewrite Hreadme.
  unfold process_tree, bind at 1. rewrite Htree.
  unfold bind at 1. rewrite tree_unchanged_cases.
  destruct (match files w2 !! _ with Some _ => _ | None => _ end) as [[]|e|]; done.
Qed.


(** *** The record of the tree and the cache files *)

Lemma length_replace_char a b s :
  String.length (replace_char a b s) = String.length s.
Proof. induction s as [|c s IH]; simpl; [done | by rewrite IH]. Qed.

Lemma path_join_length dir name :
  (String.length (path_join dir name)
   <= String.length (dir_prefix dir) + String.length name)%nat.
Proof.
  destruct (startswith "/" name) eqn:Hname.
  - unfold path_join. rewrite Hname. lia.
  - rewrite path_join_relative by done. fold (dir_prefix dir).
    rewrite length_append. lia.
Qed.

Lemma cache_file_of_length cache_dir url :
  String.length (cache_file_of cache_dir url)
  = (String.length (dir_prefix cache_dir) + String.length url + 5)%nat.
Proof.
  rewrite cache_file_of_prefix. fold (dir_prefix cache_dir).
  rewrite !length_append, length_replace_char. simpl. lia.
Qed.

(** The cache file of a URL that is longer than the two names together is
    not the record of the tree. *)
Lemma tree_record_file_fresh cache_dir owner repo url :
  (String.length owner + String.length repo + 6 < String.length url)%nat →
  tree_record_file cache_dir owner repo <> cache_file_of cache_dir url.
Proof.
  intros Hlen Heq. apply (f_equal String.length) in Heq.
  rewrite cache_file_of_length in Heq.
  pose proof (path_join_length cache_dir (owner +:+ "_" +:+ repo +:+ "_tree.json")) as Hle.
  fold (tree_record_file cache_dir owner repo) in Hle.
  rewrite !length_append in Hle. simpl in Hle. lia.
Qed.

Lemma readme_url_length owner repo :
  String.length (readme_url owner repo)
  = (String.length owner + String.length repo + 49)%nat.
Proof.
  unfold readme_url, GITHUB_API_URL. rewrite !length_append. simpl. lia.
Qed.

Lemma tree_url_length owner repo :
  String.length (tree_url owner repo)
  = (String.length owner + String.length repo + 57)%nat.
Proof.
  unfold tree_url, GITHUB_API_URL. rewrite !length_append. simpl. lia.
Qed.

Lemma fetch_readme_frame fuel owner repo token cache_dir w r w1 path :
  fetch_readme server b64decode_utf8 fuel owner repo token cache_dir w = (r, w1) →
  path <> cache_file_of cache_dir (readme_url owner repo) →
  files w1 !! path = files w !! path.
Proof.
  rewrite fetch_readme_cases. intros Hrun Hpath.
  destruct (fetch_repo_content _ _ _ _ _ _ _) as [r0 w0] eqn:Hfetch.
  apply (fetch_repo_content_frame _ _ _ _ _ _ _ _ _ path) in Hfetch; [|done].
  rewrite <- Hfetch. clear Hfetch.
  destruct r0 as [info|e|].
  - destruct (_ <~ _ ;; _)%py as [c|e|]; [by injection Hrun as _ <-| |by injection Hrun as _ <-].
    destruct (is_RequestException e); by injection Hrun as _ <-.
  - destruct (is_RequestException e); by injection Hrun as _ <-.
  - by injection Hrun as _ <-.
Qed.


(** A completed aggregation has written the descriptor to the record. *)
Lemma aggregate_files_record fuel owner repo token cache_dir tree_info
    formatted_string w out w' :
  aggregate_files server b64decode_utf8 fuel owner repo token cache_dir tree_info
    formatted_string w = (Ok out, w') →
  files w' !! tree_record_file cache_dir owner repo = Some tree_info.
Proof.
  unfold aggregate_files, bind, lift, json_dump, ret. intros Hrun.
  destruct (py_getitem tree_info "tree") as [tree|e|]; [|done..].
  destruct (py_iter tree) as [items|e|]; [|done..].
  destruct (select_paths items) as [file_paths|e|]; [|done..].
  destruct (append_blocks _ _ _ _ _ _ _ _ _ _) as [[s|e|] wa]; [|done..].
  injection Hrun as _ <-. simpl. apply lookup_insert_eq.
Qed.

(** The comparison of the snapshots, as lines 97 to 123 write it, on a
    descriptor that has a [sha].  Take a run whose README stage gave
    [formatted_string] and whose fetch of the tree gave the descriptor
    [tree_info].  If the record of the tree exists and its [sha] equals the
    one of the descriptor, the run returns [formatted_string] alone and ends
    in the world the fetch of the tree left.  If there is no record, or its
    [sha] differs, the run is the aggregation of the files; once that
    completes, the record holds the descriptor.  Only a cache file that
    holds an object gives such a descriptor. *)
Lemma process_github_repo_descriptor_sha fuel owner repo token cache_dir w
    formatted_string w1 tree_info w2 :
  fetch_readme server b64decode_utf8 fuel owner repo token cache_dir w
  = (Ok formatted_string, w1) →
  fetch_repo_content server fuel (tree_url owner repo) token cache_dir 100 w1
  = (Ok tree_info, w2) →
  let record := tree_record_file cache_dir owner repo in
  (∀ cached old_sha new_sha,
     files w !! record = Some cached →
     py_getitem cached "sha" = Ok old_sha →
     py_getitem tree_info "sha" = Ok new_sha →
     py_eq old_sha new_sha = true →
     process_github_repo server b64decode_utf8 fuel owner repo token cache_dir w
     = (Ok formatted_string, w2) ∧
     files w2 !! record = Some cached) ∧
  (files w !! record = None ∨
   (∃ cached old_sha new_sha,
      files w !! record = Some cached ∧
      py_getitem cached "sha" = Ok old_sha ∧
      py_getitem tree_info "sha" = Ok new_sha ∧
      py_eq old_sha new_sha = false) →
   process_github_repo server b64decode_utf8 fuel owner repo token cache_dir w
   = aggregate_files server b64decode_utf8 fuel owner repo token cache_dir
       tree_info formatted_string w2 ∧
   ∀ out w3,
     aggregate_files server b64decode_utf8 fuel owner repo token cache_dir
       tree_info formatted_string w2 = (Ok out, w3) →
     files w3 !! record = Some tree_info ∧
     ∀ fuel' token' formatted' w4 tree_info' w5 new_sha sha',
       py_getitem tree_info "sha" = Ok new_sha →
       fetch_readme server b64decode_utf8 fuel' owner repo token' cache_dir w3
       = (Ok formatted', w4) →
       fetch_repo_content server fuel' (tree_url owner repo) token' cache_dir 100 w4
       = (Ok tree_info', w5) →
       py_getitem tree_info' "sha" = Ok sha' →
       py_eq new_sha sha' = true →
       process_github_repo server b64decode_utf8 fuel' owner repo token' cache_dir w3
       = (Ok formatted', w5)).
Proof.
  intros Hreadme Htree record.
  assert (Hfresh1 : record <> cache_file_of cache_dir (readme_url owner repo))
    by (apply tree_record_file_fresh; rewrite readme_url_length; lia).
  assert (Hfresh2 : record <> cache_file_of cache_dir (tree_url owner repo))
    by (apply tree_record_file_fresh; rewrite tree_url_length; lia).
  assert (Hrec : files w2 !! record = files w !! record).
  { rewrite (fetch_repo_content_frame _ _ _ _ _ _ _ _ _ record Htree Hfresh2).
    by rewrite (fetch_readme_frame _ _ _ _ _ _ _ _ record Hreadme Hfresh1). }
  rewrite (process_github_repo_cases _ _ _ _ _ _ _ _ _ _ Hreadme Htree).
  rewrite tree_unchanged_cases. fold record. rewrite Hrec. split.
  - intros cached old_sha new_sha Hcached Hold Hnew Heq.
    rewrite Hcached, Hold, Hnew. simpl. by rewrite Heq.
  - intros Hdiff.
    assert (Hagg : match files w !! record with
                   | Some cached_tree_info =>
                       (old_sha <~ py_getitem cached_tree_info "sha" ;;
                        new_sha <~ py_getitem tree_info "sha" ;;
                        Ok (py_eq old_sha new_sha))%py
                   | None => Ok false
                   end = Ok false).
    { destruct Hdiff as [-> | (cached & old_sha & new_sha & -> & -> & -> & Hne)];
        [done | simpl; by rewrite Hne]. }
    rewrite Hagg. split; [done|].
    intros out w3 Hdone.
    pose proof (aggregate_files_record _ _ _ _ _ _ _ _ _ _ Hdone) as Hw3.
    fold record in Hw3. split; [done|].
    intros fuel' token' formatted' w4 tree_info' w5 new_sha sha'
           Hnew Hreadme' Htree' Hsha' Heq.
    rewrite (process_github_repo_cases _ _ _ _ _ _ _ _ _ _ Hreadme' Htree').
    rewrite tree_unchanged_cases. fold record.
    rewrite (fetch_repo_content_frame _ _ _ _ _ _ _ _ _ record Htree' Hfresh2).
    rewrite (fetch_readme_frame _ _ _ _ _ _ _ _ record Hreadme' Hfresh1).
    rewrite Hw3, Hnew, Hsha'. simpl. by rewrite Heq.
Qed.


(** C3, which the code does not meet.  A descriptor of the tree that was
    just fetched, that is, not read from a cache file, is the list that
    [fetch_repo_content] builds with [extend], whatever the remote side
    answered; it has no [sha] and no [tree].  So a run that fetches the
    descriptor neither returns the README block alone nor aggregates: when
    the record exists and has a [sha], [tree_info['sha']] raises a
    [TypeError]; when no record exists, [tree_info['tree']] raises it.  The
    record is left as it was. *)
Theorem process_github_repo_fetched_descriptor fuel owner repo token cache_dir w
    formatted_string w1 tree_info w2 :
  fetch_readme server b64decode_utf8 fuel owner repo token cache_dir w
  = (Ok formatted_string, w1) →
  files w1 !! cache_file_of cache_dir (tree_url owner repo) = None →
  fetch_repo_content server fuel (tree_url owner repo) token cache_dir 100 w1
  = (Ok tree_info, w2) →
  let record := tree_record_file cache_dir owner repo in
  (∃ items, tree_info = PList items) ∧
  files w2 !! record = files w !! record ∧
  (files w !! record = None ∨
   (∃ cached old_sha,
      files w !! record = Some cached ∧ py_getitem cached "sha" = Ok old_sha) →
   process_github_repo server b64decode_utf8 fuel owner repo token cache_dir w
   = (Raise TypeError, w2)).
Proof.
  intros Hreadme Hmiss Htree record.
  assert (Hfresh1 : record <> cache_file_of cache_dir (readme_url owner repo))
    by (apply tree_record_file_fresh; rewrite readme_url_length; lia).
  assert (Hfresh2 : record <> cache_file_of cache_dir (tree_url owner repo))
    by (apply tree_record_file_fresh; rewrite tree_url_length; lia).
  assert (Hrec : files w2 !! record = files w !! record).
  { rewrite (fetch_repo_content_frame _ _ _ _ _ _ _ _ _ record Htree Hfresh2).
    by rewrite (fetch_readme_frame _ _ _ _ _ _ _ _ record Hreadme Hfresh1). }
  assert (Hlist : ∃ items, tree_info = PList items).
  { pose proof Htree as Hrun.
    rewrite fetch_repo_content_uncached in Hrun by done.
    destruct (fetch_pages _ _ _ _ _ _ _ _) as [[all_items|e|] w0]; [|done..].
    destruct (String.eqb cache_dir ""); [done|].
    injection Hrun as <- _. by eexists. }
  split; [done|]. split; [done|].
  intros Hrecord. destruct Hlist as [items ->].
  rewrite (process_github_repo_cases _ _ _ _ _ _ _ _ _ _ Hreadme Htree).
  rewrite tree_unchanged_cases. fold record. rewrite Hrec.
  destruct Hrecord as [-> | (cached & old_sha & -> & ->)]; reflexivity.
Qed.


End Aggregator.

(** ** The pool iterator *)

Section Pool.

Context {B : Type}.

(** The results of the jobs, by job index. *)
Variable results : list (res B).

Lemma imap_sorted_next finished it :
  imap_sorted results finished it →
  it_unsorted it !! it_index it = None →
  it_index it ∉ finished.
Proof.
  intros [Hvalid _ _ Hwait] Hnone Hin.
  rewrite Hwait in Hnone. rewrite decide_True in Hnone by done.
  apply lookup_ge_None in Hnone. apply Hvalid in Hin. lia.
Qed.

Lemma imap_drain_inv turns :
  ∀ finished it,
    imap_sorted results finished it →
    (size (it_unsorted it) <= turns)%nat →
    imap_inv results finished (imap_drain turns it).
Proof.
  induction turns as [|turns IH]; intros finished it Hsorted Hsize.
  { simpl. split; [done|]. apply imap_sorted_next; [done|].
    assert (Hempty : it_unsorted it = ∅) by (apply map_size_empty_inv; lia).
    by rewrite Hempty. }
  simpl. destruct (it_unsorted it !! it_index it) as [obj|] eqn:Hnext.
  - pose proof Hsorted as [Hvalid Hbelow Hitems Hwait].
    pose proof Hnext as Hobj. rewrite Hwait in Hobj.
    destruct (decide (it_index it ∈ finished ∧ _)) as [[Hin _]|]; [|done].
    apply IH.
    + split; simpl.
      * done.
      * intros j Hj. destruct (decide (j = it_index it)) as [->|]; [done|].
        apply Hbelow. lia.
      * rewrite (take_S_r _ _ obj) by done. by rewrite Hitems.
      * intros j. destruct (decide (j = it_index it)) as [->|Hne].
        -- rewrite lookup_delete_eq. rewrite decide_False; [done|lia].
        -- rewrite lookup_delete_ne by done. rewrite Hwait.
           destruct (decide (j ∈ finished ∧ (it_index it <= j)%nat)) as [[? ?]|Hno].
           ++ rewrite decide_True; [done | split; [done|lia]].
           ++ rewrite decide_False; [done|]. intros [? ?]. apply Hno. split; [done|lia].
    + simpl. rewrite map_size_delete_Some by eauto. lia.
  - split; [done|]. by apply imap_sorted_next.
Qed.

(** One finished job keeps the invariant. *)
Lemma imap_set_inv finished it i obj :
  imap_inv results finished it →
  i ∉ finished →
  results !! i = Some obj →
  imap_inv results (i :: finished) (imap_set i obj it).
Proof.
  intros [[Hvalid Hbelow Hitems Hwait] Hnext] Hi Hobj. unfold imap_set.
  destruct (Nat.eqb_spec (it_index it) i) as [<-|Hne].
  - apply imap_drain_inv; [|done]. split; simpl.
    + intros j [->|Hj]%elem_of_cons; [by eapply lookup_lt_Some | by apply Hvalid].
    + intros j Hj. destruct (decide (j = it_index it)) as [->|]; [by left|].
      right. apply Hbelow. lia.
    + rewrite (take_S_r _ _ obj) by done. by rewrite Hitems.
    + intros j. rewrite Hwait.
      destruct (decide (j = it_index it)) as [->|Hj].
      * rewrite !decide_False; [done | lia | by intros [? _]].
      * destruct (decide (j ∈ finished ∧ (it_index it <= j)%nat)) as [[? ?]|Hno].
        -- rewrite decide_True; [done | split; [by right | lia]].
        -- rewrite decide_False; [done|].
           intros [[->|?]%elem_of_cons ?]; [done|]. apply Hno. split; [done|lia].
  - split; [split; simpl|].
    + intros j [->|Hj]%elem_of_cons; [by eapply lookup_lt_Some | by apply Hvalid].
    + intros j Hj. right. by apply Hbelow.
    + done.
    + intros j. destruct (decide (j = i)) as [->|Hj].
      * rewrite lookup_insert_eq. rewrite decide_True; [done|].
        split; [by left|]. destruct (decide (it_index it <= i)%nat); [done|].
        destruct Hi. apply Hbelow. lia.
      * rewrite lookup_insert_ne by done. rewrite Hwait.
        destruct (decide (j ∈ finished ∧ (it_index it <= j)%nat)) as [[? ?]|Hno].
        -- rewrite decide_True; [done | split; [by right | done]].
        -- rewrite decide_False; [done|].
           intros [[->|?]%elem_of_cons ?]; [done|]. by apply Hno.
    + simpl. intros [Heq|?]%elem_of_cons; done.
Qed.

End Pool.

(** The jobs of [pool_imap], finishing one after the other. *)
Lemma pool_finish_inv {A B} (func : A -> res B) (iterable : list A) completion :
  ∀ finished it,
    imap_inv (map func iterable) finished it →
    NoDup completion →
    (∀ i, i ∈ completion → (i ∉ finished) ∧ (i < length iterable)%nat) →
    imap_inv (map func iterable) (rev completion ++ finished)
      (fold_left
         (fun it i =>
            match iterable !! i with
            | Some x => imap_set i (func x) it
            | None => it
            end) completion it).
Proof.
  induction completion as [|i completion IH]; intros finished it Hinv Hnodup Hnew; [done|].
  apply NoDup_cons in Hnodup as [Hi Hnodup].
  destruct (Hnew i) as [Hfresh Hlt]; [by left|].
  destruct (lookup_lt_is_Some_2 iterable i Hlt) as [x Hx].
  simpl. rewrite Hx. rewrite <- app_assoc. apply IH; [|done|].
  - apply imap_set_inv; [done..|]. by rewrite list_lookup_fmap, Hx.
  - intros j Hj. destruct (Hnew j) as [? ?]; [by right|]. split; [|done].
    intros [->|?]%elem_of_cons; done.
Qed.

Lemma imap_collect_map {A B} (func : A -> res B) (iterable : list A) :
  imap_collect (length iterable) (map func iterable) = map_res func iterable.
Proof.
  induction iterable as [|x iterable IH]; [done|].
  simpl. destruct (func x); simpl; [|done..]. by rewrite IH.
Qed.

(** Whatever the order in which the jobs finish, [imap] hands out the
    results in the order of the jobs. *)
Lemma pool_imap_ordered {A B} (func : A -> res B) (iterable : list A) completion :
  Permutation completion (seq 0 (length iterable)) →
  pool_imap completion func iterable = map_res func iterable.
Proof.
  intros Hperm. unfold pool_imap.
  set (results := map func iterable).
  assert (Hstart : imap_inv results [] (IMapIterator 0 [] ∅)).
  { split; [split|by intros ?%elem_of_nil].
    - by intros j ?%elem_of_nil.
    - intros j Hj. simpl in Hj. lia.
    - done.
    - intros j. cbn [it_unsorted it_index]. rewrite lookup_empty.
      rewrite decide_False; [done|]. by intros [?%elem_of_nil _]. }
  pose proof (pool_finish_inv func iterable completion [] _ Hstart) as Hend.
  destruct Hend as [[Hvalid Hbelow Hitems _] Hnext].
  { rewrite Hperm. apply NoDup_seq. }
  { intros i Hi. rewrite Hperm in Hi. apply elem_of_seq in Hi.
    split; [by intros ?%elem_of_nil | lia]. }
  set (it := fold_left _ completion _) in *.
  assert (Hall : ∀ j, j ∈ rev completion ++ [] ↔ (j < length iterable)%nat).
  { intros j. rewrite app_nil_r, list_elem_of_In, <- in_rev, <- list_elem_of_In, Hperm.
    rewrite elem_of_seq. lia. }
  assert (Hindex : it_index it = length iterable).
  { destruct (Nat.lt_trichotomy (it_index it) (length iterable)) as [Hlt|[Heq|Hgt]].
    - by apply Hall in Hlt.
    - done.
    - apply Hbelow, Hall in Hgt. lia. }
  rewrite Hitems, Hindex. unfold results. rewrite take_ge by (by rewrite length_map).
  apply imap_collect_map.
Qed.

(** ** Folder aggregator *)

(** C7.  With a pool of any number of workers, whatever the order in which
    the workers finish, [process_folder] gives what the sequential reading
    gives: the block of each enumerated path, in enumeration order (or the
    exception of the first path that has one).  So the result with one
    worker and the result with any number of workers are the same. *)
Theorem process_folder_pool_invariant fs folder_path exclusions workers completion :
  completion_order workers (length (get_folder_files fs folder_path exclusions))
    completion →
  process_folder fs completion folder_path exclusions
  = process_folder_sequential fs folder_path exclusions ∧
  ∀ completion1,
    completion_order 1 (length (get_folder_files fs folder_path exclusions))
      completion1 →
    process_folder fs completion1 folder_path exclusions
    = process_folder fs completion folder_path exclusions.
Proof.
  intros [Hperm _].
  assert (Hseq : ∀ c, Permutation c
                        (seq 0 (length (get_folder_files fs folder_path exclusions))) →
                      process_folder fs c folder_path exclusions
                      = process_folder_sequential fs folder_path exclusions).
  { intros c Hc. unfold process_folder, process_folder_sequential.
    by rewrite pool_imap_ordered. }
  split; [by apply Hseq|].
  intros completion1 [Hperm1 _]. by rewrite !Hseq.
Qed.

(** ** File-system enumerator *)

Lemma dir_tree_induction (P : dir_tree -> Prop) :
  (∀ fs ds, Forall (fun e => P (snd e)) ds → P (Dir fs ds)) →
  ∀ t, P t.
Proof.
  intros Hdir. fix IH 1. intros [fs ds]. apply Hdir.
  induction ds as [|[d sub] ds IHds]; constructor; [apply IH | exact IHds].
Qed.

Lemma walk_dirs_elem walk exclusions root ds path :
  path ∈ walk_dirs walk exclusions root ds ↔
  ∃ d sub, (d, sub) ∈ ds ∧ (path_join root d ∉ exclusions) ∧
           path ∈ walk (path_join root d) sub.
Proof.
  induction ds as [|[d sub] ds IH]; simpl.
  - split; [by intros ?%elem_of_nil | by intros (? & ? & ?%elem_of_nil & _)].
  - rewrite elem_of_app, IH. split.
    + intros [Hhere | (d' & sub' & Hin & Hex & Hpath)].
      * destruct (bool_decide_reflect (path_join root d ∈ exclusions));
          [by apply elem_of_nil in Hhere|].
        exists d, sub. split; [by left | done].
      * exists d', sub'. split; [by right | done].
    + intros (d' & sub' & [[= -> ->] | Hin]%elem_of_cons & Hex & Hpath).
      * left. by rewrite bool_decide_eq_false_2.
      * right. by exists d', sub'.
Qed.

Lemma walk_folder_files exclusions root fs ds path :
  path ∈ walk_folder exclusions root (Dir fs ds) ↔
  (∃ name text, (name, text) ∈ fs ∧ has_supported_filetype name = true ∧
                path = path_join root name) ∨
  path ∈ walk_dirs (walk_folder exclusions) exclusions root ds.
Proof.
  simpl. rewrite elem_of_app. apply or_iff_compat_r.
  rewrite list_elem_of_fmap. split.
  - intros ([name text] & -> & [Hsup Hin]%list_elem_of_filter). by exists name, text.
  - intros (name & text & Hin & Hsup & ->). exists (name, text).
    split; [done|]. by apply list_elem_of_filter.
Qed.

Lemma walk_folder_enumerated exclusions t :
  ∀ root path, path ∈ walk_folder exclusions root t ↔ enumerated exclusions root t path.
Proof.
  induction t as [fs ds IH] using dir_tree_induction. intros root path. split.
  - rewrite walk_folder_files.
    intros [(name & text & Hin & Hsup & ->) | Hsub].
    + exists root, fs, ds, name, text. split; [constructor | done].
    + apply walk_dirs_elem in Hsub as (d & sub & Hin & Hex & Hpath).
      rewrite Forall_forall in IH. apply (IH (d, sub)) in Hpath; [|done].
      destruct Hpath as (dirpath & dfiles & dsubs & name & text & Hvis & Hrest).
      exists dirpath, dfiles, dsubs, name, text. split; [|done].
      by eapply visits_sub.
  - intros (dirpath & dfiles & dsubs & name & text & Hvis & Hin & Hsup & ->).
    clear IH. remember (Dir dfiles dsubs) as target eqn:Htarget.
    remember (Dir fs ds) as t eqn:Ht. revert fs ds Ht.
    induction Hvis as [root t|root fs' ds' d sub dirpath t Hd Hex Hvis IHvis];
      intros fs ds Ht; subst.
    + injection Ht as -> ->. apply walk_folder_files. left. by exists name, text.
    + injection Ht as -> ->. apply walk_folder_files. right.
      apply walk_dirs_elem. exists d, sub. split; [done|]. split; [done|].
      destruct sub as [sfs sds]. by eapply IHvis.
Qed.

(** The walk sees the sub-directories that the filter on [dirs] keeps, and
    no other. *)
Lemma walk_dirs_pruned walk exclusions root ds :
  walk_dirs walk exclusions root ds
  = walk_dirs walk exclusions root
      (filter (fun e => path_join root (fst e) ∉ exclusions) ds).
Proof.
  induction ds as [|[d sub] ds IH]; [done|].
  destruct (decide (path_join root d ∈ exclusions)) as [Hin|Hout].
  - rewrite filter_cons_False by (simpl; by intros ?).
    simpl. by rewrite bool_decide_eq_true_2.
  - rewrite filter_cons_True by done.
    simpl. rewrite bool_decide_eq_false_2 by done. by rewrite IH.
Qed.


(** C6.  The enumerator yields exactly the supported files of the
    directories it visits: the root and, below a visited directory, every
    sub-directory whose joined path is not a member of the exclusion set.
    An excluded sub-directory is dropped before the walk descends, so it
    contributes nothing, whatever it holds.  A root with [a.py], [b.txt] and
    the excluded sub-directory [node_modules] holding [c.py] yields the path
    of [a.py] and nothing else. *)
Theorem get_folder_files_enumerates :
  (∀ fs exclusions path,
     path ∈ get_folder_files fs (fs_root fs) exclusions ↔
     enumerated exclusions (fs_root fs) (fs_tree fs) path) ∧
  (∀ exclusions root dfiles dsubs,
     walk_folder exclusions root (Dir dfiles dsubs)
     = walk_folder exclusions root
         (Dir dfiles (filter (fun e => path_join root (fst e) ∉ exclusions) dsubs))) ∧
  (∀ folder_path text_a text_b text_c,
     get_folder_files
       (LocalFs folder_path
          (Dir [("a.py", text_a); ("b.txt", text_b)]
               [("node_modules", Dir [("c.py", text_c)] [])]))
       folder_path [path_join folder_path "node_modules"]
     = [path_join folder_path "a.py"]).
Proof.
  split; [|split].
  - intros fs exclusions path. unfold get_folder_files.
    rewrite String.eqb_refl. apply walk_folder_enumerated.
  - intros exclusions root dfiles dsubs. simpl. f_equal. apply walk_dirs_pruned.
  - intros folder_path text_a text_b text_c. unfold get_folder_files.
    simpl fs_root. rewrite String.eqb_refl. simpl fs_tree.
    cbn [walk_folder walk_dirs].
    rewrite bool_decide_eq_true_2 by (by apply list_elem_of_singleton).
    rewrite filter_cons_True by reflexivity.
    rewrite filter_cons_False by (simpl; discriminate).
    reflexivity.
Qed.


(** * Scenarios *)



Example empty_cache_dir_outcome :
  let run := fetch_repo_content paged_server 3 issues_url None "" 100 empty_world in
  fst run = Raise (FileNotFoundError "") ∧
  files (snd run) = ∅ ∧
  log (snd run) = page_requests issues_url (request_headers None) 100 1 3.
Proof. by vm_compute. Qed.

(** A first page of 100 items, then a status 500: the error of page 2 is
    the outcome and the cache is as before. *)
Lemma fetch_repo_content_error_keeps_cache_witness :
  let run := fetch_repo_content failing_server 5 issues_url None ".cache" 100 empty_world in
  fst run = Raise (HTTPError 500 (paginated_url issues_url 100 2)) ∧
  files (snd run) = files empty_world ∧ dirs (snd run) = dirs empty_world.
Proof.
  intros run.
  apply (fetch_repo_content_error_keeps_cache failing_server 5 issues_url None ".cache"
           100 empty_world (fst run) (snd run) 1
           (page_request issues_url (request_headers None) 100 2) 500 PNone).
  - reflexivity.
  - apply surjective_pairing.
  - simpl. lia.
  - by vm_compute.
  - by vm_compute.
  - lia.
Defined.




(** A run on a cache that holds the README, the descriptor as an object and
    a record with the same [sha]: the README block alone, and nothing
    changes. *)
Lemma process_github_repo_descriptor_sha_recorded :
  process_github_repo not_found_server scenario_b64decode 1 "o" "r" None ".cache"
    recorded_world
  = (Ok (readme_block "b"), recorded_world) ∧
  files recorded_world !! tree_record_file ".cache" "o" "r" = Some scenario_tree.
Proof.
  apply (proj1 (process_github_repo_descriptor_sha not_found_server scenario_b64decode
                  1 "o" "r" None ".cache" recorded_world
                  (readme_block "b") recorded_world scenario_tree recorded_world
                  ltac:(by vm_compute) ltac:(by vm_compute))
           scenario_tree (PStr "4b825dc") (PStr "4b825dc"));
    by vm_compute.
Defined.

(** A repository without a README whose tree endpoint answers with the
    descriptor.  From an empty cache, where the claim expects the
    aggregation and a new record: a [TypeError], and no record.  From a
    cache with a record of the same [sha], where the claim expects the
    README block alone: a [TypeError] again. *)
Lemma process_github_repo_fetched_descriptor_witness :
  let run := process_github_repo tree_server scenario_b64decode 1 "o" "r" None ".cache"
               empty_world in
  let again := process_github_repo tree_server scenario_b64decode 1 "o" "r" None ".cache"
                 record_only_world in
  fst run = Raise TypeError ∧
  files (snd run) !! tree_record_file ".cache" "o" "r" = None ∧
  files (snd run) !! cache_file_of ".cache" (tree_url "o" "r")
  = Some (PList [PStr "sha"; PStr "tree"]) ∧
  fst again = Raise TypeError ∧
  files (snd again) !! tree_record_file ".cache" "o" "r" = Some scenario_tree.
Proof.
  intros run again.
  pose (keys := PList [PStr "sha"; PStr "tree"]).
  pose (w1 := snd (fetch_readme tree_server scenario_b64decode 1 "o" "r" None ".cache"
                     empty_world)).
  pose (w2 := snd (fetch_repo_content tree_server 1 (tree_url "o" "r") None ".cache" 100
                     w1)).
  pose (v1 := snd (fetch_readme tree_server scenario_b64decode 1 "o" "r" None ".cache"
                     record_only_world)).
  pose (v2 := snd (fetch_repo_content tree_server 1 (tree_url "o" "r") None ".cache" 100
                     v1)).
  destruct (process_github_repo_fetched_descriptor tree_server scenario_b64decode
              1 "o" "r" None ".cache" empty_world readme_placeholder w1 keys w2)
    as (_ & Hrecord & Hrun); [by vm_compute..|].
  destruct (process_github_repo_fetched_descriptor tree_server scenario_b64decode
              1 "o" "r" None ".cache" record_only_world readme_placeholder v1 keys v2)
    as (_ & Hrecord' & Hagain); [by vm_compute..|].
  assert (Hrun' : run = (Raise TypeError, w2)) by (apply Hrun; by left).
  assert (Hagain' : again = (Raise TypeError, v2)).
  { apply Hagain. right. exists scenario_tree, (PStr "4b825dc"). split; by vm_compute. }
  rewrite Hrun', Hagain'. simpl fst. simpl snd.
  split; [done|]. split; [by rewrite Hrecord|]. split; [by vm_compute|].
  split; [done|]. rewrite Hrecord'. by vm_compute.
Defined.



(** Three files, three workers, the last file read first. *)
Lemma process_folder_pool_invariant_witness :
  process_folder scenario_folder [2%nat; 0%nat; 1%nat] "proj" []
  = process_folder_sequential scenario_folder "proj" [] ∧
  process_folder_sequential scenario_folder "proj" []
  = Ok (file_block "proj/a.py" "x" +:+ file_block "proj/docs/index.md" "z"
        +:+ file_block "proj/src/main.js" "w").
Proof.
  split; [|reflexivity].
  apply (proj1 (process_folder_pool_invariant scenario_folder "proj" [] 3
                  [2%nat; 0%nat; 1%nat]
                  ltac:(split;
                        [apply (Permutation_cons_append [0%nat; 1%nat] 2%nat)
                        |intros [|[|[|k]]] i [= <-]; lia]))).
Defined.

(** The folder [proj] with [node_modules] excluded, and the membership of
    [proj/a.py] in the walk of the scenario folder. *)
Lemma get_folder_files_enumerates_witness :
  get_folder_files
    (LocalFs "proj"
       (Dir [("a.py", Some "x"); ("b.txt", Some "y")]
            [("node_modules", Dir [("c.py", Some "z")] [])]))
    "proj" ["proj/node_modules"]
  = ["proj/a.py"] ∧
  ("proj/a.py" ∈ get_folder_files scenario_folder "proj" [] ↔
   enumerated [] "proj" (fs_tree scenario_folder) "proj/a.py").
Proof.
  split.
  - apply (proj2 (proj2 get_folder_files_enumerates) "proj" (Some "x") (Some "y") (Some "z")).
  - apply (proj1 get_folder_files_enumerates scenario_folder [] "proj/a.py").
Defined.

(** * Further properties *)

(** ** The fetch client, whatever the remote side answers *)

Section FetchAny.

Variable server : list request -> request -> response.

Lemma page_requests_snoc url headers per_page start n :
  page_requests url headers per_page start (S n)
  = page_requests url headers per_page start n
    ++ [page_request url headers per_page (start + Z.of_nat n)].
Proof.
  unfold page_requests. by rewrite seq_S, map_app.
Qed.

(** The loop asks for consecutive pages, one per turn, and for nothing
    else. *)
Lemma fetch_pages_requests fuel url headers per_page :
  ∀ page all_items w r w',
    fetch_pages server fuel url headers per_page page all_items w = (r, w') →
    ∃ n, (n <= fuel)%nat ∧
         log w' = log w ++ page_requests url headers per_page page n.
Proof.
  induction fuel as [|fuel IH]; intros page all_items w r w' Hrun.
  { injection Hrun as _ <-. exists 0%nat. split; [done|]. by rewrite app_nil_r. }
  rewrite fetch_pages_step in Hrun. cbv zeta in Hrun.
  set (rq := page_request url headers per_page page) in *.
  assert (Hone : ∀ x : res (list pyval),
            (x, World (files w) (dirs w) (log w ++ [rq])) = (r, w') →
            ∃ n, (n <= S fuel)%nat ∧
                 log w' = log w ++ page_requests url headers per_page page n).
  { intros x [= _ <-]. exists 1%nat. split; [lia|].
    rewrite page_requests_S. by simpl. }
  destruct (server (log w) rq) as [|status body]; [by eapply Hone|].
  destruct (raise_for_status _ _); [|by eapply Hone..].
  destruct (py_iter body); [|by eapply Hone..].
  destruct (py_len body); [|by eapply Hone..].
  destruct (_ <? _); [by eapply Hone|].
  apply IH in Hrun as (n & Hn & Hlog). simpl in Hlog.
  exists (S n). split; [lia|].
  by rewrite Hlog, page_requests_S, <- app_assoc.
Qed.

(** X1.  Whatever the remote side answers and however the call ends, the
    requests of one call are the pages 1, 2, ..., n of its URL, in this
    order, each with the headers of the call; a call that finds its cache
    file makes none. *)
Theorem fetch_repo_content_requests fuel url token cache_dir per_page w r w' :
  fetch_repo_content server fuel url token cache_dir per_page w = (r, w') →
  ∃ n, (n <= fuel)%nat ∧
       log w' = log w ++ page_requests url (request_headers token) per_page 1 n ∧
       (is_Some (files w !! cache_file_of cache_dir url) → n = 0%nat).
Proof.
  intros Hrun.
  destruct (files w !! cache_file_of cache_dir url) as [v|] eqn:Hfile.
  - rewrite (fetch_repo_content_cached _ _ _ _ _ _ _ v) in Hrun by done.
    injection Hrun as _ <-. exists 0%nat.
    split; [lia|]. split; [by rewrite app_nil_r | done].
  - rewrite fetch_repo_content_uncached in Hrun by done.
    destruct (fetch_pages _ _ _ _ _ _ _ _) as [r1 w1] eqn:Hpages.
    apply fetch_pages_requests in Hpages as (n & Hn & Hlog).
    exists n. split; [done|]. split; [|by intros [? ?]].
    destruct r1; [destruct (String.eqb cache_dir "")|..]; by injection Hrun as _ <-.
Qed.


(** X3.  A call that has returned a value is repeated for nothing: any
    later call for the same URL and cache directory, whatever its token,
    page size and fuel, returns the same value without a request and
    without a change to the cache. *)
Theorem fetch_repo_content_idempotent fuel url token cache_dir per_page w v w' :
  fetch_repo_content server fuel url token cache_dir per_page w = (Ok v, w') →
  ∀ fuel2 token2 per_page2,
    fetch_repo_content server fuel2 url token2 cache_dir per_page2 w' = (Ok v, w').
Proof.
  intros Hrun fuel2 token2 per_page2. apply fetch_repo_content_cached.
  destruct (files w !! cache_file_of cache_dir url) as [v0|] eqn:Hfile.
  - rewrite (fetch_repo_content_cached _ _ _ _ _ _ _ v0) in Hrun by done.
    by injection Hrun as <- <-.
  - rewrite fetch_repo_content_uncached in Hrun by done.
    destruct (fetch_pages _ _ _ _ _ _ _ _) as [[all_items|e|] w1]; [|done..].
    destruct (String.eqb cache_dir ""); [done|].
    injection Hrun as <- <-. apply lookup_insert_eq.
Qed.

(** X4.  Cache entries are written once: whatever a call does, every file
    that was in the cache before it is there after it with the same
    content, and no directory is taken away. *)
Theorem fetch_repo_content_keeps_entries fuel url token cache_dir per_page w r w' :
  fetch_repo_content server fuel url token cache_dir per_page w = (r, w') →
  (∀ path v, files w !! path = Some v → files w' !! path = Some v) ∧
  dirs w ⊆ dirs w'.
Proof.
  intros Hrun.
  destruct (files w !! cache_file_of cache_dir url) as [v0|] eqn:Hfile.
  - rewrite (fetch_repo_content_cached _ _ _ _ _ _ _ v0) in Hrun by done.
    by injection Hrun as _ <-.
  - rewrite fetch_repo_content_uncached in Hrun by done.
    destruct (fetch_pages _ _ _ _ _ _ _ _) as [r1 w1] eqn:Hpages.
    apply fetch_pages_world in Hpages as (Hfiles & Hdirs & _).
    destruct r1 as [all_items|e|]; [destruct (String.eqb cache_dir "")|..];
      injection Hrun as _ Hw; rewrite <- Hw.
    + by rewrite Hfiles, Hdirs.
    + simpl. rewrite Hfiles, Hdirs. split; [|apply union_subseteq_r]. intros path v Hpath.
      rewrite lookup_insert_ne; [done|]. intros <-. by rewrite Hfile in Hpath.
    + by rewrite Hfiles, Hdirs.
    + by rewrite Hfiles, Hdirs.
Qed.

(** With a page size of zero or less no page is short. *)
Lemma fetch_pages_no_short_page fuel url headers per_page :
  per_page <= 0 →
  ∀ page all_items w v,
    fst (fetch_pages server fuel url headers per_page page all_items w) <> Ok v.
Proof.
  intros Hpp. induction fuel as [|fuel IH]; intros page all_items w v; [done|].
  rewrite fetch_pages_step. cbv zeta.
  destruct (server _ _) as [|status body]; [done|].
  destruct (raise_for_status _ _); [|done..].
  destruct body as [| | |s|items|entries]; simpl; try done.
  all: rewrite (proj2 (Z.ltb_ge _ _)) by lia; apply IH.
Qed.

(** X5.  With a page size of zero or less an uncached call never returns a
    value: the loop has no way out but an exception. *)
Theorem fetch_repo_content_no_short_page fuel url token cache_dir per_page w :
  per_page <= 0 →
  files w !! cache_file_of cache_dir url = None →
  ∀ v, fst (fetch_repo_content server fuel url token cache_dir per_page w) <> Ok v.
Proof.
  intros Hpp Hmiss v. rewrite fetch_repo_content_uncached by done.
  pose proof (fetch_pages_no_short_page fuel url (request_headers token) per_page Hpp
                1 [] w) as Hloop.
  destruct (fetch_pages _ _ _ _ _ _ _ _) as [[all_items|e|] w1]; simpl in *; [|done..].
  by destruct (Hloop all_items).
Qed.

End FetchAny.

(** ** The remote tree enumerator *)

Lemma select_paths_app pre post :
  select_paths (pre ++ post)
  = (kept <~ select_paths pre ;; more <~ select_paths post ;; Ok (kept ++ more))%py.
Proof.
  induction pre as [|item pre IH]; simpl.
  - by destruct (select_paths post).
  - destruct (py_getitem item "type") as [ty|e|]; simpl; [|done..].
    destruct (if py_eq ty (PStr "blob") then _ else _) as [keep|e|]; simpl; [|done..].
    rewrite IH. destruct (select_paths pre) as [kept|e|]; simpl; [|done..].
    destruct (select_paths post) as [more|e|]; simpl; [|done..].
    by rewrite app_assoc.
Qed.

Lemma select_paths_described items described :
  Forall2 (fun item d => tree_entry item (fst d) (snd d)) items described →
  select_paths items = Ok (blob_paths described).
Proof.
  induction 1 as [|item [path ty] items described (entries & -> & Hty & Hpath) _ IH];
    [done|].
  simpl in Hty, Hpath. simpl. rewrite Hty. simpl. unfold blob_paths in *.
  destruct (String.eqb_spec ty "blob") as [->|Hne].
  - rewrite Hpath. simpl. rewrite IH. simpl.
    destruct (has_supported_filetype path) eqn:Hsup.
    + by rewrite filter_cons_True.
    + rewrite filter_cons_False; [done|]. simpl. intros [_ ?]. congruence.
  - rewrite IH. simpl. rewrite filter_cons_False; [done|]. simpl. by intros [? _].
Qed.

(** X6.  On a descriptor whose entries all have a type and a path,
    [select_paths] keeps the paths of the entries of type [blob] with a
    supported file type and no other, and keeps them in the order of the
    descriptor. *)
Theorem select_paths_filter items described :
  Forall2 (fun item d => tree_entry item (fst d) (snd d)) items described →
  ∃ file_paths,
    select_paths items = Ok file_paths ∧
    (∀ path, path ∈ file_paths ↔
             (path, "blob") ∈ described ∧ has_supported_filetype path = true) ∧
    file_paths `sublist_of` map fst described.
Proof.
  intros Hitems. exists (blob_paths described).
  split; [by apply select_paths_described|]. unfold blob_paths. split.
  - intros path. rewrite list_elem_of_fmap. split.
    + intros ([p ty] & -> & [[Hty Hsup] Hin]%list_elem_of_filter).
      simpl in *. by subst ty.
    + intros [Hin Hsup]. exists (path, "blob"). split; [done|].
      by apply list_elem_of_filter.
  - apply fmap_sublist, sublist_filter.
Qed.

(** X7.  [select_paths] stops at the first entry it cannot read: an entry
    without a type raises [KeyError] for [type], an entry of type [blob]
    without a path raises [KeyError] for [path], whatever follows.  An
    entry of another type is passed over without a look at its path. *)
Theorem select_paths_missing_key pre kept :
  select_paths pre = Ok kept →
  (∀ entries post,
     dict_get "type" entries = None →
     select_paths (pre ++ PDict entries :: post) = Raise (KeyError "type")) ∧
  (∀ entries post,
     dict_get "type" entries = Some (PStr "blob") →
     dict_get "path" entries = None →
     select_paths (pre ++ PDict entries :: post) = Raise (KeyError "path")) ∧
  (∀ entries ty post,
     dict_get "type" entries = Some ty →
     py_eq ty (PStr "blob") = false →
     select_paths (pre ++ PDict entries :: post)
     = (more <~ select_paths post ;; Ok (kept ++ more))%py).
Proof.
  intros Hpre. repeat split.
  - intros entries post Hty. rewrite select_paths_app, Hpre. simpl. by rewrite Hty.
  - intros entries post Hty Hpath. rewrite select_paths_app, Hpre. simpl.
    by rewrite Hty, Hpath.
  - intros entries ty post Hty Hne. rewrite select_paths_app, Hpre. simpl.
    rewrite Hty. simpl. rewrite Hne. simpl. by destruct (select_paths post).
Qed.

(** ** The aggregator, stage by stage *)

Lemma append_nil_r (s : string) : s +:+ "" = s.
Proof. induction s as [|a s IH]; [done|]. rewrite append_cons. by f_equal. Qed.

Lemma str_join_cons (part : string) (parts : list string) :
  str_join (part :: parts) = part +:+ str_join parts.
Proof.
  destruct parts as [|part' parts]; unfold str_join; simpl.
  - by rewrite append_nil_r.
  - reflexivity.
Qed.

Section AggregatorAny.

Variable server : list request -> request -> response.
Variable b64decode_utf8 : string -> res string.

Lemma content_url_length owner repo path :
  String.length (content_url owner repo path)
  = (String.length owner + String.length repo + String.length path + 40)%nat.
Proof.
  unfold content_url, GITHUB_API_URL. rewrite !length_append. simpl. lia.
Qed.

Lemma load_file_content_cached fuel owner repo token cache_dir w path text :
  cached_content b64decode_utf8 cache_dir owner repo (files w) path text →
  load_file_content server b64decode_utf8 fuel owner repo token cache_dir path w
  = (Ok text, w).
Proof.
  intros (file_info & field & Hfile & Hfield & Htext).
  unfold load_file_content, bind, lift.
  rewrite (fetch_repo_content_cached _ _ _ _ _ _ _ file_info) by done.
  by rewrite Hfield, Htext.
Qed.

Lemma append_blocks_cached fuel owner repo token cache_dir w file_paths texts :
  Forall2 (cached_content b64decode_utf8 cache_dir owner repo (files w)) file_paths texts →
  ∀ formatted_string,
    append_blocks server b64decode_utf8 fuel owner repo token cache_dir file_paths
      formatted_string w
    = (Ok (formatted_string +:+ str_join (zip_with file_block file_paths texts)), w).
Proof.
  induction 1 as [|path text file_paths texts Hpath _ IH]; intros formatted_string.
  - simpl. unfold ret, str_join. simpl. by rewrite append_nil_r.
  - simpl. unfold bind at 1. rewrite (load_file_content_cached _ _ _ _ _ _ _ text) by done.
    rewrite IH. by rewrite str_join_cons, append_assoc.
Qed.

(** X8.  When the descriptor lists well-formed entries and the cache holds
    the answer for each selected file, the aggregation returns the string
    it was given followed by the block of each selected file, in the order
    of the descriptor; it makes no request and changes the cache in one
    place, the record of the tree, which now holds the descriptor. *)
Theorem aggregate_files_cached fuel owner repo token cache_dir w tree_info
    items described texts formatted_string :
  py_getitem tree_info "tree" = Ok (PList items) →
  Forall2 (fun item d => tree_entry item (fst d) (snd d)) items described →
  Forall2 (cached_content b64decode_utf8 cache_dir owner repo (files w))
    (blob_paths described) texts →
  aggregate_files server b64decode_utf8 fuel owner repo token cache_dir tree_info
    formatted_string w
  = (Ok (formatted_string
         +:+ str_join (zip_with file_block (blob_paths described) texts)),
     World (<[tree_record_file cache_dir owner repo := tree_info]> (files w))
           (dirs w) (log w)).
Proof.
  intros Htree Hitems Htexts. unfold aggregate_files, bind at 1, lift.
  rewrite Htree. unfold bind at 1. simpl py_iter. unfold bind at 1.
  rewrite (select_paths_described items described Hitems). unfold bind at 1.
  by rewrite (append_blocks_cached _ _ _ _ _ _ _ texts Htexts).
Qed.

Lemma load_file_content_frame fuel owner repo token cache_dir path w r w' :
  load_file_content server b64decode_utf8 fuel owner repo token cache_dir path w
  = (r, w') →
  files w' !! tree_record_file cache_dir owner repo
  = files w !! tree_record_file cache_dir owner repo.
Proof.
  unfold load_file_content, bind, lift. intros Hrun.
  destruct (fetch_repo_content _ _ _ _ _ _ _) as [r0 w0] eqn:Hfetch.
  apply (fetch_repo_content_frame _ _ _ _ _ _ _ _ _
           (tree_record_file cache_dir owner repo)) in Hfetch;
    [|apply tree_record_file_fresh; rewrite content_url_length; lia].
  rewrite <- Hfetch. destruct r0 as [file_info|e|]; [|by injection Hrun as _ <-..].
  destruct (py_getitem file_info "content"); by injection Hrun as _ <-.
Qed.

Lemma append_blocks_frame fuel owner repo token cache_dir file_paths :
  ∀ formatted_string w r w',
    append_blocks server b64decode_utf8 fuel owner repo token cache_dir file_paths
      formatted_string w = (r, w') →
    files w' !! tree_record_file cache_dir owner repo
    = files w !! tree_record_file cache_dir owner repo.
Proof.
  induction file_paths as [|path file_paths IH]; intros formatted_string w r w' Hrun.
  - by injection Hrun as _ <-.
  - simpl in Hrun. unfold bind at 1 in Hrun.
    destruct (load_file_content _ _ _ _ _ _ _ _ _) as [r0 w0] eqn:Hload.
    apply load_file_content_frame in Hload. rewrite <- Hload.
    destruct r0 as [content|e|]; [|by injection Hrun as _ <-..].
    by eapply IH.
Qed.

Lemma append_blocks_prefix fuel owner repo token cache_dir file_paths :
  ∀ formatted_string w out w',
    append_blocks server b64decode_utf8 fuel owner repo token cache_dir file_paths
      formatted_string w = (Ok out, w') →
    ∃ suffix, out = formatted_string +:+ suffix.
Proof.
  induction file_paths as [|path file_paths IH]; intros formatted_string w out w' Hrun.
  - injection Hrun as <- _. exists "". by rewrite append_nil_r.
  - simpl in Hrun. unfold bind at 1 in Hrun.
    destruct (load_file_content _ _ _ _ _ _ _ _ _) as [[content|e|] w0]; [|done..].
    apply IH in Hrun as [suffix ->]. eexists. by rewrite append_assoc.
Qed.

(** X9.  The record of the tree changes only when a run completes its
    aggregation: a run that ends otherwise than with a value leaves the
    record as it found it, so the next run does not take the skip path
    for files that were never loaded. *)
Theorem process_github_repo_failed_keeps_record fuel owner repo token cache_dir w r w' :
  process_github_repo server b64decode_utf8 fuel owner repo token cache_dir w = (r, w') →
  (∀ out, r <> Ok out) →
  files w' !! tree_record_file cache_dir owner repo
  = files w !! tree_record_file cache_dir owner repo.
Proof.
  intros Hrun Hfail. set (record := tree_record_file cache_dir owner repo).
  assert (Hfresh1 : record <> cache_file_of cache_dir (readme_url owner repo))
    by (apply tree_record_file_fresh; rewrite readme_url_length; lia).
  assert (Hfresh2 : record <> cache_file_of cache_dir (tree_url owner repo))
    by (apply tree_record_file_fresh; rewrite tree_url_length; lia).
  unfold process_github_repo, bind at 1 in Hrun.
  destruct (fetch_readme _ _ _ _ _ _ _ _) as [r0 w1] eqn:Hreadme.
  apply (fetch_readme_frame _ _ _ _ _ _ _ _ _ _ record) in Hreadme; [|done].
  rewrite <- Hreadme.
  destruct r0 as [formatted_string|e|]; [|by injection Hrun as _ <-..].
  unfold process_tree, bind at 1 in Hrun.
  destruct (fetch_repo_content _ _ _ _ _ _ _) as [r1 w2] eqn:Htree.
  apply (fetch_repo_content_frame _ _ _ _ _ _ _ _ _ record) in Htree; [|done].
  rewrite <- Htree.
  destruct r1 as [tree_info|e|]; [|by injection Hrun as _ <-..].
  unfold bind at 1 in Hrun. rewrite tree_unchanged_cases in Hrun.
  destruct (match files w2 !! _ with Some _ => _ | None => _ end) as [[]|e|];
    [injection Hrun as <- _; by destruct (Hfail formatted_string)
    | |by injection Hrun as _ <-..].
  unfold aggregate_files, bind at 1, lift in Hrun.
  destruct (py_getitem tree_info "tree") as [tree|e|]; [|by injection Hrun as _ <-..].
  unfold bind at 1 in Hrun.
  destruct (py_iter tree) as [items|e|]; [|by injection Hrun as _ <-..].
  unfold bind at 1 in Hrun.
  destruct (select_paths items) as [file_paths|e|]; [|by injection Hrun as _ <-..].
  unfold bind at 1 in Hrun.
  destruct (append_blocks _ _ _ _ _ _ _ _ _ _) as [r3 w3] eqn:Hblocks.
  apply append_blocks_frame in Hblocks. fold record in Hblocks. rewrite <- Hblocks.
  destruct r3 as [out|e|]; [|by injection Hrun as _ <-..].
  injection Hrun as <- _. by destruct (Hfail out).
Qed.

(** X10.  A run that returns a document returns one that starts with the
    string of its README stage, which is the README block or the
    placeholder: whatever is aggregated comes after it. *)
Theorem process_github_repo_readme_first fuel owner repo token cache_dir w out w' :
  process_github_repo server b64decode_utf8 fuel owner repo token cache_dir w
  = (Ok out, w') →
  ∃ readme w1 suffix,
    fetch_readme server b64decode_utf8 fuel owner repo token cache_dir w
    = (Ok readme, w1) ∧
    out = readme +:+ suffix ∧
    (readme = readme_placeholder ∨ ∃ readme_content, readme = readme_block readme_content).
Proof.
  intros Hrun. unfold process_github_repo, bind at 1 in Hrun.
  destruct (fetch_readme _ _ _ _ _ _ _ _) as [[readme|e|] w1] eqn:Hreadme; [|done..].
  exists readme, w1.
  assert (Hshape : readme = readme_placeholder ∨
                   ∃ readme_content, readme = readme_block readme_content).
  { rewrite fetch_readme_cases in Hreadme.
    destruct (fetch_repo_content _ _ _ _ _ _ _) as [[info|e|] w0]; [| |done].
    - destruct (_ <~ _ ;; _)%py as [c|e|]; [| |done].
      + injection Hreadme as <- _. right. by exists c.
      + destruct (is_RequestException e); [|done]. injection Hreadme as <- _. by left.
    - destruct (is_RequestException e); [|done]. injection Hreadme as <- _. by left. }
  unfold process_tree, bind at 1 in Hrun.
  destruct (fetch_repo_content _ _ _ _ _ _ _) as [[tree_info|e|] w2]; [|done..].
  unfold bind at 1 in Hrun. rewrite tree_unchanged_cases in Hrun.
  destruct (match files w2 !! _ with Some _ => _ | None => _ end) as [[]|e|]; [| |done..].
  - injection Hrun as <- _. exists "". by rewrite append_nil_r.
  - unfold aggregate_files, bind at 1, lift in Hrun.
    destruct (py_getitem tree_info "tree") as [tree|e|]; [|done..].
    unfold bind at 1 in Hrun. destruct (py_iter tree) as [items|e|]; [|done..].
    unfold bind at 1 in Hrun. destruct (select_paths items) as [file_paths|e|]; [|done..].
    unfold bind at 1 in Hrun.
    destruct (append_blocks _ _ _ _ _ _ _ _ _ _) as [[s|e|] w3] eqn:Hblocks; [|done..].
    apply append_blocks_prefix in Hblocks as [suffix ->].
    injection Hrun as <- _. by exists suffix.
Qed.

End AggregatorAny.

Section AggregatorEdges.

Variable server : list request -> request -> response.
Variable b64decode_utf8 : string -> res string.

Lemma py_getitem_not_request v key e :
  py_getitem v key = Raise e → is_RequestException e = false.
Proof.
  destruct v as [| | | | |entries]; simpl; try by intros [= <-].
  destruct (dict_get key entries); [done | by intros [= <-]].
Qed.

(** X11.  The [try] around the README lets through what is not a request
    error.  When the cache holds for the README an answer that has no
    [content] to read (a list, or a dict without that key), the run ends
    with the [TypeError] or [KeyError] of the subscript, not with the
    placeholder, and nothing is requested. *)
Theorem process_github_repo_readme_unreadable fuel owner repo token cache_dir w
    readme_info e :
  files w !! cache_file_of cache_dir (readme_url owner repo) = Some readme_info →
  py_getitem readme_info "content" = Raise e →
  process_github_repo server b64decode_utf8 fuel owner repo token cache_dir w
  = (Raise e, w) ∧
  (e = TypeError ∨ e = KeyError "content").
Proof.
  intros Hfile Hfield. split.
  - unfold process_github_repo, bind at 1. rewrite fetch_readme_cases.
    rewrite (fetch_repo_content_cached _ _ _ _ _ _ _ readme_info) by done.
    rewrite Hfield. simpl. by rewrite (py_getitem_not_request _ _ _ Hfield).
  - destruct readme_info as [| | | | |entries]; simpl in Hfield;
      try (injection Hfield as <-; by left).
    destruct (dict_get "content" entries); [done|]. injection Hfield as <-. by right.
Qed.

(** X12.  A record of the tree that has no [sha] to read stops the run
    after the fetch of the tree: the subscript on the record raises, the
    descriptor is not looked at, no file is loaded and the record stays. *)
Theorem process_github_repo_record_unreadable fuel owner repo token cache_dir w
    formatted_string w1 tree_info w2 cached e :
  fetch_readme server b64decode_utf8 fuel owner repo token cache_dir w
  = (Ok formatted_string, w1) →
  fetch_repo_content server fuel (tree_url owner repo) token cache_dir 100 w1
  = (Ok tree_info, w2) →
  files w !! tree_record_file cache_dir owner repo = Some cached →
  py_getitem cached "sha" = Raise e →
  process_github_repo server b64decode_utf8 fuel owner repo token cache_dir w
  = (Raise e, w2) ∧
  files w2 !! tree_record_file cache_dir owner repo = Some cached.
Proof.
  intros Hreadme Htree Hrecord Hsha.
  set (record := tree_record_file cache_dir owner repo) in *.
  assert (Hrec : files w2 !! record = Some cached).
  { rewrite (fetch_repo_content_frame _ _ _ _ _ _ _ _ _ record Htree)
      by (apply tree_record_file_fresh; rewrite tree_url_length; lia).
    rewrite (fetch_readme_frame _ _ _ _ _ _ _ _ _ _ record Hreadme)
      by (apply tree_record_file_fresh; rewrite readme_url_length; lia).
    done. }
  split; [|done].
  rewrite (process_github_repo_cases _ _ _ _ _ _ _ _ _ _ _ _ Hreadme Htree).
  rewrite tree_unchanged_cases. fold record. by rewrite Hrec, Hsha.
Qed.

End AggregatorEdges.

(** ** The folder aggregator on a file it cannot read *)

Lemma map_res_app {A B} (f : A -> res B) (pre post : list A) :
  map_res f (pre ++ post)
  = (ys <~ map_res f pre ;; zs <~ map_res f post ;; Ok (ys ++ zs))%py.
Proof.
  induction pre as [|x pre IH]; simpl.
  - by destruct (map_res f post).
  - destruct (f x); simpl; [|done..]. rewrite IH.
    destruct (map_res f pre); simpl; [|done..].
    by destruct (map_res f post).
Qed.

(** X13.  [process_folder] gives no partial document: when a file cannot
    be read, the call ends with the exception of the first such file in
    enumeration order, whatever the number of workers and the order in
    which they finish. *)
Theorem process_folder_first_error fs folder_path exclusions workers completion
    pre path post blocks e :
  get_folder_files fs folder_path exclusions = pre ++ path :: post →
  map_res (process_file fs) pre = Ok blocks →
  process_file fs path = Raise e →
  completion_order workers (length (pre ++ path :: post)) completion →
  process_folder fs completion folder_path exclusions = Raise e.
Proof.
  intros Hpaths Hpre Hpath [Hperm _]. unfold process_folder. rewrite Hpaths.
  rewrite pool_imap_ordered by done.
  rewrite map_res_app, Hpre. simpl. by rewrite Hpath.
Qed.

(** ** Cache file names *)

Lemma str_mem_app c (s t : string) :
  str_mem c (s +:+ t) = str_mem c s || str_mem c t.
Proof.
  induction s as [|a s IH]; [done|].
  rewrite append_cons. simpl. by rewrite IH, orb_assoc.
Qed.

Lemma str_mem_replace_char (a b : ascii) (s : string) :
  a <> b → str_mem a (replace_char a b s) = false.
Proof.
  intros Hab. induction s as [|c s IH]; [done|]. simpl. rewrite IH, orb_false_r.
  destruct (Ascii.eqb_spec c a) as [->|Hc]; apply Ascii.eqb_neq; congruence.
Qed.

(** X14.  The cache is flat: the cache file of a URL is the cache
    directory, a slash where [os.path.join] puts one, and a name without a
    slash that ends in [.json]; no URL makes a sub-directory or leaves the
    cache directory. *)
Theorem cache_file_of_flat cache_dir url :
  ∃ name,
    cache_file_of cache_dir url = dir_prefix cache_dir +:+ name +:+ ".json" ∧
    str_mem slash (name +:+ ".json") = false.
Proof.
  exists (replace_char slash underscore url). split.
  - apply cache_file_of_prefix.
  - rewrite str_mem_app. by rewrite str_mem_replace_char.
Qed.

(** ** The paths the enumerator yields *)

Lemma rev_app_append (s acc : string) :
  String.rev_app s acc = String.rev s +:+ acc.
Proof.
  revert acc. induction s as [|a s IH]; intros acc; [done|].
  unfold String.rev. simpl. rewrite (IH (String a acc)), (IH (String a "")).
  by rewrite append_assoc.
Qed.

Lemma rev_app_app (s t acc : string) :
  String.rev_app (s +:+ t) acc = String.rev_app t (String.rev_app s acc).
Proof.
  revert acc. induction s as [|a s IH]; intros acc; [done|].
  rewrite append_cons. simpl. apply IH.
Qed.

Lemma rev_append (s t : string) :
  String.rev (s +:+ t) = String.rev t +:+ String.rev s.
Proof.
  unfold String.rev at 1. rewrite rev_app_app. apply rev_app_append.
Qed.

Lemma startswith_app (p x y : string) :
  startswith p x = true → startswith p (x +:+ y) = true.
Proof.
  revert x. induction p as [|a p IH]; intros [|b x]; simpl; try done.
  intros [-> Hp]%andb_true_iff. by rewrite (IH _ Hp).
Qed.

Lemma endswith_app (pre s suffix : string) :
  endswith s suffix = true → endswith (pre +:+ s) suffix = true.
Proof. unfold endswith. rewrite rev_append. apply startswith_app. Qed.

Lemma has_supported_filetype_app (pre name : string) :
  has_supported_filetype name = true → has_supported_filetype (pre +:+ name) = true.
Proof.
  unfold has_supported_filetype. rewrite !existsb_exists.
  intros (ext & Hext & Hends). exists ext. split; [done|]. by apply endswith_app.
Qed.

Lemma has_supported_filetype_join (root name : string) :
  has_supported_filetype name = true →
  has_supported_filetype (path_join root name) = true.
Proof.
  intros Hname. unfold path_join.
  destruct (startswith "/" name); [done|].
  destruct (_ || _); repeat apply has_supported_filetype_app; done.
Qed.

(** X15.  Every path the enumerator yields ends, as a whole, in one of the
    supported extensions: joining the directory in front of a file name
    does not change how the name ends. *)
Theorem get_folder_files_supported fs folder_path exclusions path :
  path ∈ get_folder_files fs folder_path exclusions →
  has_supported_filetype path = true.
Proof.
  unfold get_folder_files. destruct (String.eqb folder_path (fs_root fs));
    [|by intros ?%elem_of_nil].
  intros (dirpath & dfiles & dsubs & name & text & _ & _ & Hsup & ->)%walk_folder_enumerated.
  by apply has_supported_filetype_join.
Qed.

(** ** The reference resolver on the URLs of a remote *)

Lemma str_find_absent c (s : string) : str_mem c s = false → str_find c s = None.
Proof.
  induction s as [|a s IH]; [done|]. simpl.
  intros [-> Hs]%orb_false_elim. by rewrite IH.
Qed.

Lemma before_first_absent c (s : string) : str_mem c s = false → before_first c s = s.
Proof. intros Hs. unfold before_first. by rewrite str_find_absent. Qed.

Lemma drop_params_absent (s : string) : str_mem ";" s = false → drop_params s = s.
Proof.
  induction s as [|a s IH]; [done|]. simpl.
  intros [-> Hs]%orb_false_elim. by rewrite IH.
Qed.

Lemma split_on_absent c (s : string) : str_mem c s = false → split_on c s = [s].
Proof.
  induction s as [|a s IH]; [done|]. simpl.
  intros [-> Hs]%orb_false_elim. by rewrite IH.
Qed.

Lemma split_on_app c (s t : string) :
  str_mem c s = false → split_on c (s +:+ String c t) = s :: split_on c t.
Proof.
  induction s as [|a s IH]; intros Hs.
  - change ("" +:+ String c t) with (String c t). simpl. by rewrite Ascii.eqb_refl.
  - simpl in Hs. apply orb_false_elim in Hs as [Ha Hs].
    rewrite append_cons. simpl. by rewrite Ha, IH.
Qed.

Lemma lstrip_char_no_lead c (s : string) : no_lead c s → lstrip_char c s = s.
Proof. destruct s as [|a s]; [done|]. simpl. by intros ->. Qed.

Lemma rstrip_char_absent c (s : string) : str_mem c s = false → rstrip_char c s = s.
Proof.
  induction s as [|a s IH]; [done|]. simpl.
  intros [-> Hs]%orb_false_elim. rewrite IH by done. by destruct s.
Qed.

Lemma rstrip_char_app c (s t : string) :
  rstrip_char c t <> EmptyString →
  rstrip_char c (s +:+ t) = s +:+ rstrip_char c t.
Proof.
  intros Ht. induction s as [|a s IH]; [done|].
  rewrite !append_cons. simpl. rewrite IH.
  destruct (s +:+ rstrip_char c t) eqn:Hs; [|done].
  destruct s; [done | by rewrite append_cons in Hs].
Qed.

(** The two segments come back from a path made of them. *)
Lemma split_two_segments (first second : string) :
  first <> EmptyString → str_mem slash first = false →
  second <> EmptyString → str_mem slash second = false →
  split_on slash (strip_char slash (first +:+ String slash second))
  = [first; second].
Proof.
  intros Hfirst Hclean1 Hsecond Hclean2. unfold strip_char.
  assert (Htail : rstrip_char slash (String slash second) = String slash second).
  { simpl. rewrite rstrip_char_absent by done. by destruct second. }
  rewrite lstrip_char_no_lead.
  - rewrite rstrip_char_app by (by rewrite Htail). rewrite Htail.
    by rewrite split_on_app, split_on_absent.
  - destruct first as [|a first]; [done|]. simpl in *.
    by apply orb_false_elim in Hclean1 as [? _].
Qed.

Lemma strip_char_lead c (s : string) :
  strip_char c (String c s) = strip_char c s.
Proof. unfold strip_char. simpl. by rewrite Ascii.eqb_refl. Qed.

Lemma remove_unsafe_absent (s : string) :
  str_mem "009" s = false → str_mem "010" s = false → str_mem "013" s = false →
  remove_unsafe s = s.
Proof.
  induction s as [|a s IH]; [done|]. simpl.
  intros [H1 ?]%orb_false_elim [H2 ?]%orb_false_elim [H3 ?]%orb_false_elim.
  unfold is_unsafe_url_char. rewrite H1, H2, H3. simpl. by rewrite IH.
Qed.

Lemma remove_unsafe_app (s t : string) :
  remove_unsafe (s +:+ t) = remove_unsafe s +:+ remove_unsafe t.
Proof.
  induction s as [|a s IH]; [done|]. rewrite append_cons. simpl.
  destruct (is_unsafe_url_char a); [done|]. by rewrite append_cons, IH.
Qed.

(** Nothing is removed from an address made of a clean lead and two
    segments. *)
Lemma remove_unsafe_segments (lead owner repo : string) :
  remove_unsafe lead = lead → url_segment owner → url_segment repo →
  remove_unsafe (lead +:+ owner +:+ "/" +:+ repo) = lead +:+ owner +:+ "/" +:+ repo.
Proof.
  intros Hlead (_ & _ & _ & _ & _ & Ho1 & Ho2 & Ho3) (_ & _ & _ & _ & _ & Hr1 & Hr2 & Hr3).
  rewrite !remove_unsafe_app, Hlead.
  by rewrite (remove_unsafe_absent owner), (remove_unsafe_absent repo).
Qed.

Section RemoteUrls.

Variable bracketed_netloc_error : string -> option string.

(** X16.  The resolver gives back what a repository URL was made of: for an
    owner and a name that are each one path segment, without a tab, a
    carriage return or a line feed, the URL [https://github.com/owner/name]
    resolves to exactly this owner and this name.  Nothing is taken off the
    name, so a name that ends in [.git], as in the URL of a clone, keeps
    that ending. *)
Theorem parse_github_url_https (owner repo : string) :
  url_segment owner → url_segment repo →
  parse_github_url bracketed_netloc_error
    ("https://github.com/" +:+ owner +:+ "/" +:+ repo) = Ok (owner, repo).
Proof.
  intros Hso Hsr.
  pose proof Hso as (Howner & Ho1 & Ho2 & Ho3 & Ho4 & _).
  pose proof Hsr as (Hrepo & Hr1 & Hr2 & Hr3 & Hr4 & _).
  set (rest := owner +:+ "/" +:+ repo).
  assert (Hclean : ∀ c, str_mem c owner = false → str_mem c repo = false →
                        Ascii.eqb "/" c = false → str_mem c (String "/" rest) = false).
  { intros c Hco Hcr Hc. unfold rest. change ("/" +:+ repo) with (String "/" repo).
    cbn [str_mem]. rewrite Hc, str_mem_app, Hco. cbn [str_mem]. by rewrite Hc, Hcr. }
  assert (Hpath : urlparse_path bracketed_netloc_error ("https://github.com/" +:+ rest)
                  = Ok (String "/" rest)).
  { unfold urlparse_path.
    change (lstrip_c0 ("https://github.com/" +:+ rest))
      with ("https://github.com/" +:+ rest).
    unfold rest at 1. rewrite remove_unsafe_segments by done. fold rest.
    change (split_scheme ("https://github.com/" +:+ rest))
      with ("https", "//github.com/" +:+ rest).
    cbv beta iota zeta.
    change (drop_netloc bracketed_netloc_error ("//github.com/" +:+ rest))
      with (Ok (A:=string) (String "/" rest)).
    cbn [res_bind].
    rewrite (before_first_absent "#") by (by apply Hclean).
    rewrite (before_first_absent "?") by (by apply Hclean).
    change (existsb (String.eqb "https") uses_params) with true. cbn iota.
    f_equal. apply drop_params_absent. by apply Hclean. }
  rewrite (parse_github_url_cases _ _ _ Hpath).
  change (String "/" rest) with (String slash rest). rewrite strip_char_lead.
  unfold rest. change ("/" +:+ repo) with (String slash repo).
  by rewrite split_two_segments.
Qed.

(** X17.  A remote in the form [git@github.com:owner/name], which [git]
    reports for a clone over SSH, has no scheme and no network location for
    [urlparse]: the whole text is the path, and the resolver answers with
    the host and the colon in front of the owner. *)
Theorem parse_github_url_scp_remote (owner repo : string) :
  url_segment owner → url_segment repo →
  parse_github_url bracketed_netloc_error
    ("git@github.com:" +:+ owner +:+ "/" +:+ repo)
  = Ok ("git@github.com:" +:+ owner, repo).
Proof.
  intros Hso Hsr.
  pose proof Hso as (Howner & Ho1 & Ho2 & Ho3 & Ho4 & _).
  pose proof Hsr as (Hrepo & Hr1 & Hr2 & Hr3 & Hr4 & _).
  set (rest := owner +:+ "/" +:+ repo).
  set (url := "git@github.com:" +:+ rest).
  assert (Hclean : ∀ c, str_mem c owner = false → str_mem c repo = false →
                        Ascii.eqb "/" c = false →
                        str_mem c "git@github.com:" = false → str_mem c url = false).
  { intros c Hco Hcr Hc Hlead. unfold url, rest.
    change ("/" +:+ repo) with (String "/" repo).
    rewrite !str_mem_app, Hlead, Hco. cbn [str_mem]. by rewrite Hc, Hcr. }
  assert (Hpath : urlparse_path bracketed_netloc_error url = Ok url).
  { unfold urlparse_path.
    change (lstrip_c0 url) with url.
    unfold url at 1, rest at 1. rewrite remove_unsafe_segments by done.
    fold rest. fold url.
    change (split_scheme url) with (EmptyString, url).
    cbv beta iota zeta.
    change (drop_netloc bracketed_netloc_error url) with (Ok (A:=string) url).
    cbn [res_bind].
    rewrite (before_first_absent "#") by (by apply Hclean).
    rewrite (before_first_absent "?") by (by apply Hclean).
    change (existsb (String.eqb "") uses_params) with true. cbn iota.
    f_equal. apply drop_params_absent. by apply Hclean. }
  rewrite (parse_github_url_cases _ _ _ Hpath).
  unfold url, rest. change ("/" +:+ repo) with (String slash repo).
  rewrite <- append_assoc. rewrite split_two_segments; [done| |  |done..].
  - by destruct owner.
  - rewrite str_mem_app. unfold slash. by rewrite Ho1.
Qed.

End RemoteUrls.

(** ** Exclusions that match nothing *)

Lemma rev_nonempty (s : string) : s <> EmptyString → String.rev s <> EmptyString.
Proof.
  destruct s as [|a s]; [done|]. intros _. unfold String.rev. simpl.
  rewrite rev_app_append. by destruct (String.rev s).
Qed.

Lemma endswith_sep_app (x d : string) :
  d <> EmptyString → endswith (x +:+ d) "/" = endswith d "/".
Proof.
  intros Hd. unfold endswith. rewrite rev_append.
  pose proof (rev_nonempty d Hd) as Hrev.
  by destruct (String.rev d).
Qed.

Lemma path_join_proper (root d : string) :
  d <> EmptyString → endswith d "/" = false →
  path_join root d <> EmptyString ∧ endswith (path_join root d) "/" = false.
Proof.
  intros Hd Hend. unfold path_join.
  destruct (startswith "/" d); [done|].
  destruct (_ || _).
  - rewrite endswith_sep_app by done. split; [|done].
    destruct root; [done | by rewrite append_cons].
  - rewrite <- append_assoc, endswith_sep_app by done. split; [|done].
    destruct root; by rewrite ?append_cons.
Qed.

Lemma dead_exclusion_no_match (exclusions : list string) (root d : string) :
  Forall dead_exclusion exclusions →
  d <> EmptyString → endswith d "/" = false →
  path_join root d ∉ exclusions.
Proof.
  intros Hdead Hd Hend Hin. rewrite Forall_forall in Hdead.
  destruct (path_join_proper root d Hd Hend) as [Hne Hjoin].
  destruct (Hdead _ Hin) as [Heq | Hslash]; [done | congruence].
Qed.

Lemma walk_folder_dead_exclusions (exclusions : list string) :
  Forall dead_exclusion exclusions →
  ∀ t, proper_names t → ∀ root, walk_folder exclusions root t = walk_folder [] root t.
Proof.
  intros Hdead t. induction t as [fs ds IH] using dir_tree_induction.
  intros Hproper root. inversion Hproper as [fs' ds' Hds]; subst.
  simpl. f_equal. clear Hproper.
  induction ds as [|[d sub] ds IHds]; [done|].
  apply Forall_cons in IH as [IHsub IH]. apply Forall_cons in Hds as [(Hd & Hend & Hsub) Hds].
  simpl in *. rewrite bool_decide_eq_false_2 by (by apply dead_exclusion_no_match).
  rewrite ?bool_decide_eq_false_2 by (by intros ?%elem_of_nil).
  rewrite IHsub by done. f_equal. by apply IHds.
Qed.

Lemma path_join_empty_dead (folder_path : string) :
  dead_exclusion (path_join folder_path "").
Proof.
  unfold dead_exclusion, path_join. simpl startswith. cbn iota.
  destruct (String.eqb_spec folder_path "") as [->|Hne]; [by left|]. simpl orb.
  destruct (endswith folder_path "/") eqn:Hend.
  - right. by rewrite append_nil_r.
  - right. unfold endswith. rewrite rev_append. reflexivity.
Qed.

(** X19.  An exclusion that is empty or ends in a slash excludes nothing:
    the enumerator compares it with joined paths, which are never empty and
    never end in a slash.  So a directory typed with a slash after its name
    is scanned like any other. *)
Theorem get_folder_files_dead_exclusions fs folder_path exclusions :
  Forall dead_exclusion exclusions →
  proper_names (fs_tree fs) →
  get_folder_files fs folder_path exclusions = get_folder_files fs folder_path [].
Proof.
  intros Hdead Hproper. unfold get_folder_files.
  destruct (String.eqb folder_path (fs_root fs)); [|done].
  by apply walk_folder_dead_exclusions.
Qed.

(** X20.  In the mode [Folder Scan], an empty answer to the prompt for
    the directories to exclude gives the one exclusion [folder_path/],
    which matches nothing: the whole folder is scanned, [.git] and
    [node_modules] included, the list [DEFAULT_EXCLUSIONS] being nowhere
    applied. *)
Theorem main_folder_scan_empty_line fs completion folder_path :
  proper_names (fs_tree fs) →
  main_folder_scan fs completion folder_path ""
  = (text <~ process_folder fs completion folder_path [] ;;
     Ok (Saved "folder-formatted-prompt.txt" text))%py.
Proof.
  intros Hproper. unfold main_folder_scan, process_folder, get_folder_files.
  simpl split_on. simpl map.
  destruct (String.eqb folder_path (fs_root fs)); [|done].
  rewrite (walk_folder_dead_exclusions [path_join folder_path (py_strip "")]); [done| |done].
  apply Forall_singleton, path_join_empty_dead.
Qed.

(** ** [main] *)

Section MainProps.

Variable bracketed_netloc_error : string -> option string.
Variable server : list request -> request -> response.
Variable b64decode_utf8 : string -> res string.

(** X18.  A [ValueError] is answered differently by the two remote modes.
    Typed at the prompt of [GitHub URL], a URL the resolver refuses is
    reported on the console, and so is every other [ValueError] of the run,
    a failed decoding included: the run ends without an exception and
    without a document.  Read from [git] in [GitHub Auto], the same URL ends
    the run with the [ValueError].  Whatever the resolver raises is a
    [ValueError], and a refused URL costs no request; when [urlparse]
    accepts the URL, the message is the one of the resolver. *)
Theorem main_value_errors fuel git_url token w :
  (∀ msg w',
     save_github_repo bracketed_netloc_error server b64decode_utf8 fuel git_url token w
     = (Raise (ValueError msg), w') →
     main_github_url bracketed_netloc_error server b64decode_utf8 fuel git_url token w
     = (Ok (Printed msg), w') ∧
     ∀ result,
       extract_git_url result = Some git_url → git_url <> EmptyString →
       main_github_auto bracketed_netloc_error server b64decode_utf8 fuel true
         result token w
       = (Raise (ValueError msg), w')) ∧
  (∀ e,
     parse_github_url bracketed_netloc_error git_url = Raise e →
     (∃ msg, e = ValueError msg) ∧
     save_github_repo bracketed_netloc_error server b64decode_utf8 fuel git_url token w
     = (Raise e, w)) ∧
  (∀ path e,
     urlparse_path bracketed_netloc_error git_url = Ok path →
     parse_github_url bracketed_netloc_error git_url = Raise e →
     e = ValueError "Invalid GitHub URL provided!").
Proof.
  assert (Hmsg : ∀ path e,
            urlparse_path bracketed_netloc_error git_url = Ok path →
            parse_github_url bracketed_netloc_error git_url = Raise e →
            e = ValueError "Invalid GitHub URL provided!").
  { intros path e Hpath Hparse.
    rewrite (parse_github_url_cases _ _ _ Hpath) in Hparse.
    destruct (split_on _ _) as [|? [|? ?]]; try done; by injection Hparse as <-. }
  split; [|split; [|done]].
  - intros msg w' Hrun. split.
    + unfold main_github_url. by rewrite Hrun.
    + intros result Hgit Hne. unfold main_github_auto. rewrite Hgit.
      apply String.eqb_neq in Hne. by rewrite Hne.
  - intros e Hparse. split.
    + destruct (urlparse_path_cases bracketed_netloc_error git_url)
        as [[path Hpath] | [msg Hrefused]].
      * eexists. by eapply Hmsg.
      * unfold parse_github_url in Hparse. rewrite Hrefused in Hparse.
        injection Hparse as <-. by eexists.
    + unfold save_github_repo, bind, lift. by rewrite Hparse.
Qed.

End MainProps.

(** ** What [git] prints *)

Lemma lstrip_space_length (s : string) :
  lstrip_space s = s ∨ (String.length (lstrip_space s) < String.length s)%nat.
Proof.
  induction s as [|a s IH]; [by left|]. simpl.
  destruct (is_py_space a); [|by left]. right. destruct IH as [->|?]; lia.
Qed.

Lemma rstrip_space_length (s : string) :
  (String.length (rstrip_space s) <= String.length s)%nat.
Proof.
  induction s as [|a s IH]; [done|]. simpl.
  destruct (rstrip_space s); [destruct (is_py_space a)|]; simpl in *; lia.
Qed.

Lemma py_strip_fixed (s : string) :
  py_strip s = s → lstrip_space s = s ∧ rstrip_space s = s.
Proof.
  unfold py_strip. intros Hs.
  destruct (lstrip_space_length s) as [Hl|Hl]; [by rewrite Hl in Hs|].
  pose proof (rstrip_space_length (lstrip_space s)) as Hr.
  rewrite Hs in Hr. lia.
Qed.

Lemma rstrip_space_app_blank (s t : string) :
  rstrip_space t = EmptyString → rstrip_space (s +:+ t) = rstrip_space s.
Proof.
  intros Ht. induction s as [|a s IH]; [done|].
  rewrite append_cons. simpl. by rewrite IH.
Qed.

Lemma py_strip_line (url : string) :
  py_strip url = url → url <> EmptyString → py_strip (url +:+ NL) = url.
Proof.
  intros [Hl Hr]%py_strip_fixed Hne. unfold py_strip.
  destruct url as [|a url]; [done|]. rewrite append_cons.
  simpl in Hl. simpl lstrip_space.
  destruct (is_py_space a) eqn:Ha.
  - pose proof (lstrip_space_length url) as [Heq|Hlt].
    + rewrite Heq in Hl. apply (f_equal String.length) in Hl. simpl in Hl. lia.
    + rewrite Hl in Hlt. simpl in Hlt. lia.
  - rewrite <- append_cons. by rewrite rstrip_space_app_blank.
Qed.

Section AutoMode.

Variable bracketed_netloc_error : string -> option string.
Variable server : list request -> request -> response.
Variable b64decode_utf8 : string -> res string.

(** X21.  In the mode [GitHub Auto] the resolver gets the URL that [git]
    printed without the newline after it.  When the folder is no
    repository, when [git] ends with a code other than zero, or when it
    prints nothing but white space, the run ends with a message, makes no
    request and changes nothing. *)
Theorem main_github_auto_remote fuel token w :
  (∀ url,
     py_strip url = url → url <> EmptyString →
     main_github_auto bracketed_netloc_error server b64decode_utf8 fuel true
       (CompletedProcess 0 (url +:+ NL)) token w
     = save_github_repo bracketed_netloc_error server b64decode_utf8 fuel url token w) ∧
  (∀ code out,
     code <> 0 →
     main_github_auto bracketed_netloc_error server b64decode_utf8 fuel true
       (CompletedProcess code out) token w
     = (Ok (Printed "GitHub URL could not be extracted."), w)) ∧
  (∀ out,
     py_strip out = EmptyString →
     main_github_auto bracketed_netloc_error server b64decode_utf8 fuel true
       (CompletedProcess 0 out) token w
     = (Ok (Printed "GitHub URL could not be extracted."), w)) ∧
  (∀ result,
     main_github_auto bracketed_netloc_error server b64decode_utf8 fuel false result token w
     = (Ok (Printed "Not a valid git repository."), w)).
Proof.
  repeat split.
  - intros url Hurl Hne. unfold main_github_auto, extract_git_url. simpl.
    rewrite py_strip_line by done. apply String.eqb_neq in Hne. by rewrite Hne.
  - intros code out Hcode. unfold main_github_auto, extract_git_url. simpl.
    apply Z.eqb_neq in Hcode. by rewrite Hcode.
  - intros out Hout. unfold main_github_auto, extract_git_url. simpl. by rewrite Hout.
Qed.

End AutoMode.

(** ** Where the requests go *)

Lemma startswith_app_same (a b c : string) :
  startswith (a +:+ b) (a +:+ c) = startswith b c.
Proof.
  induction a as [|x a IH]; [done|].
  rewrite !append_cons. simpl. by rewrite Ascii.eqb_refl.
Qed.

Lemma requests_within_refl P w : requests_within P w w.
Proof. exists []. by rewrite app_nil_r. Qed.

Lemma requests_within_trans P w1 w2 w3 :
  requests_within P w1 w2 → requests_within P w2 w3 → requests_within P w1 w3.
Proof.
  intros (new1 & Hlog1 & Hall1) (new2 & Hlog2 & Hall2).
  exists (new1 ++ new2). split; [by rewrite Hlog2, Hlog1, app_assoc|].
  by apply Forall_app.
Qed.

Section Requests.

Variable server : list request -> request -> response.
Variable b64decode_utf8 : string -> res string.

(** X22.  Every request of a call carries the [Accept] header of the API,
    and carries the token, as [Bearer], exactly when the call was given a
    token that is not the empty string. *)
Theorem fetch_repo_content_headers fuel url token cache_dir per_page w r w' rq :
  fetch_repo_content server fuel url token cache_dir per_page w = (r, w') →
  rq ∈ drop (length (log w)) (log w') →
  assoc "Accept" (req_headers rq) = Some "application/vnd.github.v3+json" ∧
  assoc "Authorization" (req_headers rq)
  = match token with
    | Some t => if String.eqb t "" then None else Some ("Bearer " +:+ t)
    | None => None
    end.
Proof.
  intros Hrun Hrq.
  assert (Hlog : ∃ n, log w' = log w
                      ++ page_requests url (request_headers token) per_page 1 n).
  { destruct (files w !! cache_file_of cache_dir url) as [v|] eqn:Hfile.
    - rewrite (fetch_repo_content_cached _ _ _ _ _ _ _ v) in Hrun by done.
      injection Hrun as _ <-. exists 0%nat. by rewrite app_nil_r.
    - rewrite fetch_repo_content_uncached in Hrun by done.
      destruct (fetch_pages _ _ _ _ _ _ _ _) as [r1 w1] eqn:Hpages.
      apply fetch_pages_requests in Hpages as (n & _ & Hlog).
      exists n.
      destruct r1; [destruct (String.eqb cache_dir "")|..]; by injection Hrun as _ <-. }
  destruct Hlog as [n Hlog]. rewrite Hlog, drop_app_length in Hrq.
  apply list_elem_of_fmap in Hrq as (i & -> & _). simpl.
  destruct token as [t|]; [|done]. by destruct (String.eqb t "").
Qed.

Lemma fetch_repo_content_within fuel owner repo token cache_dir per_page tail w r w' :
  startswith "/" tail = true →
  fetch_repo_content server fuel
    (GITHUB_API_URL +:+ "/repos/" +:+ owner +:+ "/" +:+ repo +:+ tail)
    token cache_dir per_page w = (r, w') →
  requests_within (repo_request owner repo token) w w'.
Proof.
  intros Htail Hrun.
  set (url := GITHUB_API_URL +:+ "/repos/" +:+ owner +:+ "/" +:+ repo +:+ tail) in *.
  assert (Hlog : ∃ n, log w' = log w
                      ++ page_requests url (request_headers token) per_page 1 n).
  { destruct (files w !! cache_file_of cache_dir url) as [v|] eqn:Hfile.
    - rewrite (fetch_repo_content_cached _ _ _ _ _ _ _ v) in Hrun by done.
      injection Hrun as _ <-. exists 0%nat. by rewrite app_nil_r.
    - rewrite fetch_repo_content_uncached in Hrun by done.
      destruct (fetch_pages _ _ _ _ _ _ _ _) as [r1 w1] eqn:Hpages.
      apply fetch_pages_requests in Hpages as (n & _ & Hlog).
      exists n.
      destruct r1; [destruct (String.eqb cache_dir "")|..]; by injection Hrun as _ <-. }
  destruct Hlog as [n Hlog]. exists (page_requests url (request_headers token) per_page 1 n).
  split; [done|]. apply Forall_forall. intros rq (i & -> & _)%list_elem_of_fmap.
  split; [|done]. simpl. unfold paginated_url. apply startswith_app.
  unfold url. rewrite !startswith_app_same.
  destruct tail as [|c tail]; [done|]. simpl in *.
  by apply andb_true_iff in Htail as [-> _].
Qed.

Lemma load_file_content_within fuel owner repo token cache_dir path w r w' :
  load_file_content server b64decode_utf8 fuel owner repo token cache_dir path w
  = (r, w') →
  requests_within (repo_request owner repo token) w w'.
Proof.
  unfold load_file_content, bind, lift. intros Hrun.
  destruct (fetch_repo_content _ _ _ _ _ _ _) as [r0 w0] eqn:Hfetch.
  apply (fetch_repo_content_within _ _ _ _ _ _ ("/contents/" +:+ path)) in Hfetch;
    [|done].
  destruct r0 as [file_info|e|]; [|by injection Hrun as _ <-..].
  destruct (py_getitem file_info "content"); by injection Hrun as _ <-.
Qed.

Lemma append_blocks_within fuel owner repo token cache_dir file_paths :
  ∀ formatted_string w r w',
    append_blocks server b64decode_utf8 fuel owner repo token cache_dir file_paths
      formatted_string w = (r, w') →
    requests_within (repo_request owner repo token) w w'.
Proof.
  induction file_paths as [|path file_paths IH]; intros formatted_string w r w' Hrun.
  - injection Hrun as _ <-. apply requests_within_refl.
  - simpl in Hrun. unfold bind at 1 in Hrun.
    destruct (load_file_content _ _ _ _ _ _ _ _ _) as [r0 w0] eqn:Hload.
    apply load_file_content_within in Hload.
    destruct r0 as [content|e|]; [|by injection Hrun as _ <-..].
    eapply requests_within_trans; [done|]. by eapply IH.
Qed.

(** X23.  However a run of [process_github_repo] goes, each of its
    requests is for an address under
    [https://api.github.com/repos/owner/repo/] and carries the headers made
    from the token of the run: the token is sent nowhere else. *)
Theorem process_github_repo_requests fuel owner repo token cache_dir w r w' :
  process_github_repo server b64decode_utf8 fuel owner repo token cache_dir w = (r, w') →
  requests_within (repo_request owner repo token) w w'.
Proof.
  intros Hrun. unfold process_github_repo, bind at 1 in Hrun.
  destruct (fetch_readme _ _ _ _ _ _ _ _) as [r0 w1] eqn:Hreadme.
  assert (H1 : requests_within (repo_request owner repo token) w w1).
  { rewrite fetch_readme_cases in Hreadme.
    destruct (fetch_repo_content _ _ _ _ _ _ _) as [r00 w0] eqn:Hfetch.
    apply (fetch_repo_content_within _ _ _ _ _ _ "/contents/README.md") in Hfetch;
      [|done].
    destruct r00 as [info|e|].
    - destruct (_ <~ _ ;; _)%py as [c|e|]; [by injection Hreadme as _ <-| |
                                           by injection Hreadme as _ <-].
      destruct (is_RequestException e); by injection Hreadme as _ <-.
    - destruct (is_RequestException e); by injection Hreadme as _ <-.
    - by injection Hreadme as _ <-. }
  destruct r0 as [formatted_string|e|]; [|by injection Hrun as _ <-..].
  unfold process_tree, bind at 1 in Hrun.
  destruct (fetch_repo_content _ _ _ _ _ _ _) as [r1 w2] eqn:Htree.
  apply (fetch_repo_content_within _ _ _ _ _ _ "/git/trees/main?recursive=1") in Htree;
    [|done].
  pose proof (requests_within_trans _ _ _ _ H1 Htree) as H2.
  destruct r1 as [tree_info|e|]; [|by injection Hrun as _ <-..].
  unfold bind at 1 in Hrun. rewrite tree_unchanged_cases in Hrun.
  destruct (match files w2 !! _ with Some _ => _ | None => _ end) as [[]|e|];
    [by injection Hrun as _ <- | |by injection Hrun as _ <-..].
  unfold aggregate_files, bind at 1, lift in Hrun.
  destruct (py_getitem tree_info "tree") as [tree|e|]; [|by injection Hrun as _ <-..].
  unfold bind at 1 in Hrun.
  destruct (py_iter tree) as [items|e|]; [|by injection Hrun as _ <-..].
  unfold bind at 1 in Hrun.
  destruct (select_paths items) as [file_paths|e|]; [|by injection Hrun as _ <-..].
  unfold bind at 1 in Hrun.
  destruct (append_blocks _ _ _ _ _ _ _ _ _ _) as [r3 w3] eqn:Hblocks.
  apply append_blocks_within in Hblocks.
  pose proof (requests_within_trans _ _ _ _ H2 Hblocks) as H3.
  destruct r3 as [out|e|]; by injection Hrun as _ <-.
Qed.

End Requests.

(** * Further scenarios *)

(** A first page of 100 items, then a status 500: two requests, pages 1
    and 2. *)
Lemma fetch_repo_content_requests_witness :
  let run := fetch_repo_content failing_server 5 issues_url None ".cache" 100 empty_world in
  ∃ n, (n <= 5)%nat ∧
       log (snd run)
       = log empty_world ++ page_requests issues_url (request_headers None) 100 1 n ∧
       (is_Some (files empty_world !! cache_file_of ".cache" issues_url) → n = 0%nat).
Proof.
  intros run.
  apply (fetch_repo_content_requests failing_server 5 issues_url None ".cache" 100
           empty_world (fst run) (snd run)).
  apply surjective_pairing.
Defined.


(** The object of the README endpoint, fetched once, then asked for again
    with another token and page size. *)
Lemma fetch_repo_content_idempotent_witness :
  let run := fetch_repo_content object_server 1 (readme_url "o" "r") None ".cache" 100
               empty_world in
  fetch_repo_content object_server 0 (readme_url "o" "r") (Some "t0ken") ".cache"
    1 (snd run)
  = (Ok (PList [PStr "name"; PStr "content"]), snd run).
Proof.
  intros run.
  apply (fetch_repo_content_idempotent object_server 1 (readme_url "o" "r") None ".cache"
           100 empty_world (PList [PStr "name"; PStr "content"]) (snd run)).
  by vm_compute.
Defined.

Lemma fetch_repo_content_keeps_entries_witness :
  let run := fetch_repo_content paged_server 3 issues_url None ".cache" 100 cached_world in
  (∀ path v, files cached_world !! path = Some v → files (snd run) !! path = Some v) ∧
  dirs cached_world ⊆ dirs (snd run).
Proof.
  intros run.
  apply (fetch_repo_content_keeps_entries paged_server 3 issues_url None ".cache" 100
           cached_world (fst run) (snd run)).
  apply surjective_pairing.
Defined.

Lemma fetch_repo_content_no_short_page_witness :
  fst (fetch_repo_content paged_server 7 issues_url None ".cache" 0 empty_world)
  <> Ok (PList (concat issue_pages)).
Proof.
  apply (fetch_repo_content_no_short_page paged_server 7 issues_url None ".cache" 0
           empty_world); [lia | reflexivity].
Defined.

Lemma scenario_items_described :
  Forall2 (fun item d => tree_entry item (fst d) (snd d)) scenario_items scenario_described.
Proof.
  repeat (constructor; [eexists; split; [reflexivity|split; reflexivity]|]).
  constructor.
Defined.

Lemma select_paths_filter_witness :
  ∃ file_paths,
    select_paths scenario_items = Ok file_paths ∧
    (∀ path, path ∈ file_paths ↔
             (path, "blob") ∈ scenario_described ∧ has_supported_filetype path = true) ∧
    file_paths `sublist_of` map fst scenario_described.
Proof.
  apply (select_paths_filter scenario_items scenario_described scenario_items_described).
Defined.

Lemma select_paths_missing_key_witness :
  select_paths (scenario_items ++ [PDict [("path", PStr "b.py")]; PNone])
  = Raise (KeyError "type") ∧
  select_paths (scenario_items ++ [PDict [("type", PStr "blob")]])
  = Raise (KeyError "path") ∧
  select_paths (scenario_items ++ [PDict [("type", PStr "commit")]]) = Ok ["a.py"].
Proof.
  pose proof (select_paths_missing_key scenario_items ["a.py"] eq_refl)
    as (Htype & Hpath & Hother).
  split; [|split].
  - apply Htype. reflexivity.
  - apply Hpath; reflexivity.
  - apply (Hother _ (PStr "commit")); reflexivity.
Defined.

Lemma aggregate_files_cached_witness :
  aggregate_files not_found_server scenario_b64decode 1 "o" "r" None ".cache"
    scenario_tree readme_placeholder cached_world
  = (Ok (readme_placeholder +:+ str_join (zip_with file_block ["a.py"] ["a"])),
     World (<[tree_record_file ".cache" "o" "r" := scenario_tree]> (files cached_world))
           (dirs cached_world) (log cached_world)).
Proof.
  apply (aggregate_files_cached not_found_server scenario_b64decode 1 "o" "r" None
           ".cache" cached_world scenario_tree scenario_items scenario_described ["a"]).
  - reflexivity.
  - apply scenario_items_described.
  - constructor; [|constructor].
    exists (PDict [("content", PStr "YQ==")]), (PStr "YQ==").
    split; [by vm_compute | split; reflexivity].
Defined.

(** The README endpoint answers with an object: the run ends with a
    [TypeError], and there is still no record. *)
Lemma process_github_repo_failed_keeps_record_witness :
  let run := process_github_repo object_server scenario_b64decode 1 "o" "r" None ".cache"
               empty_world in
  files (snd run) !! tree_record_file ".cache" "o" "r"
  = files empty_world !! tree_record_file ".cache" "o" "r".
Proof.
  intros run.
  apply (process_github_repo_failed_keeps_record object_server scenario_b64decode 1
           "o" "r" None ".cache" empty_world (fst run) (snd run)).
  - apply surjective_pairing.
  - intros out. by vm_compute.
Defined.

Lemma process_github_repo_readme_first_witness :
  ∃ readme w1 suffix,
    fetch_readme not_found_server scenario_b64decode 1 "o" "r" None ".cache" recorded_world
    = (Ok readme, w1) ∧
    readme_block "b" = readme +:+ suffix ∧
    (readme = readme_placeholder ∨ ∃ readme_content, readme = readme_block readme_content).
Proof.
  apply (process_github_repo_readme_first not_found_server scenario_b64decode 1 "o" "r"
           None ".cache" recorded_world (readme_block "b") recorded_world).
  by vm_compute.
Defined.

Lemma process_github_repo_readme_unreadable_witness :
  process_github_repo not_found_server scenario_b64decode 1 "o" "r" None ".cache"
    stale_world
  = (Raise TypeError, stale_world) ∧
  (TypeError = TypeError ∨ TypeError = KeyError "content").
Proof.
  apply (process_github_repo_readme_unreadable not_found_server scenario_b64decode 1
           "o" "r" None ".cache" stale_world (PList [PStr "name"; PStr "content"]));
    by vm_compute.
Defined.

Lemma process_github_repo_record_unreadable_witness :
  process_github_repo not_found_server scenario_b64decode 1 "o" "r" None ".cache"
    broken_record_world
  = (Raise (KeyError "sha"), broken_record_world) ∧
  files broken_record_world !! tree_record_file ".cache" "o" "r"
  = Some (PDict [("tree", PList [])]).
Proof.
  apply (process_github_repo_record_unreadable not_found_server scenario_b64decode 1
           "o" "r" None ".cache" broken_record_world (readme_block "b")
           broken_record_world scenario_tree broken_record_world);
    by vm_compute.
Defined.

Lemma process_folder_first_error_witness :
  process_folder unreadable_folder [2%nat; 1%nat; 0%nat] "proj" []
  = Raise (ValueError "utf-8").
Proof.
  apply (process_folder_first_error unreadable_folder "proj" [] 3
           [2%nat; 1%nat; 0%nat] ["proj/a.py"] "proj/b.py" ["proj/c.py"]
           [file_block "proj/a.py" "x"]); try reflexivity.
  split.
  - apply (Permutation_trans (perm_swap 1%nat 2%nat [0%nat])).
    apply (Permutation_trans (perm_skip 1%nat (perm_swap 0%nat 2%nat []))).
    apply perm_swap.
  - intros [|[|[|k]]] i [= <-]; lia.
Defined.

Lemma get_folder_files_supported_witness :
  has_supported_filetype "proj/docs/index.md" = true.
Proof.
  apply (get_folder_files_supported scenario_folder "proj" [] "proj/docs/index.md").
  by vm_compute; repeat constructor.
Defined.

Lemma url_segment_owner : url_segment "martinmagala".
Proof. repeat split; done. Defined.

Lemma url_segment_clone : url_segment "repo2prompt.git".
Proof. repeat split; done. Defined.

Lemma parse_github_url_https_witness :
  parse_github_url lenient_brackets "https://github.com/martinmagala/repo2prompt.git"
  = Ok ("martinmagala", "repo2prompt.git").
Proof.
  apply (parse_github_url_https lenient_brackets "martinmagala" "repo2prompt.git"
           url_segment_owner url_segment_clone).
Defined.

Lemma parse_github_url_scp_remote_witness :
  parse_github_url lenient_brackets "git@github.com:martinmagala/repo2prompt.git"
  = Ok ("git@github.com:martinmagala", "repo2prompt.git").
Proof.
  apply (parse_github_url_scp_remote lenient_brackets "martinmagala" "repo2prompt.git"
           url_segment_owner url_segment_clone).
Defined.

(** The address of a user, not of a repository, in both remote modes. *)
Lemma main_value_errors_witness :
  main_github_url lenient_brackets not_found_server scenario_b64decode 1
    "https://github.com/martinmagala" None empty_world
  = (Ok (Printed "Invalid GitHub URL provided!"), empty_world) ∧
  main_github_auto lenient_brackets not_found_server scenario_b64decode 1 true
    (CompletedProcess 0 "https://github.com/martinmagala") None empty_world
  = (Raise (ValueError "Invalid GitHub URL provided!"), empty_world) ∧
  ValueError "Invalid GitHub URL provided!" = ValueError "Invalid GitHub URL provided!".
Proof.
  pose proof (main_value_errors lenient_brackets not_found_server scenario_b64decode 1
                "https://github.com/martinmagala" None empty_world)
    as (Hcaught & Hparse & Hmsg).
  destruct (Hparse (ValueError "Invalid GitHub URL provided!") eq_refl) as [_ Hsave].
  destruct (Hcaught _ _ Hsave) as [Hurl Hauto].
  split; [exact Hurl|]. split; [apply Hauto; [reflexivity | discriminate]|].
  apply (Hmsg "/martinmagala" _ eq_refl eq_refl).
Defined.

(** An address with a bracket that is never closed, typed at the prompt. *)
Example main_github_url_open_bracket :
  main_github_url lenient_brackets not_found_server scenario_b64decode 1
    "https://[" None empty_world
  = (Ok (Printed "Invalid IPv6 URL"), empty_world).
Proof. reflexivity. Qed.

Lemma scenario_folder_proper : proper_names (fs_tree scenario_folder).
Proof.
  constructor. repeat (constructor; [split; [done|split; [reflexivity|]]|]).
  - constructor. constructor.
  - constructor. constructor.
  - constructor.
Defined.

(** The exclusion [proj/docs/], typed with a slash, and an empty one. *)
Lemma get_folder_files_dead_exclusions_witness :
  get_folder_files scenario_folder "proj" ["proj/docs/"; ""]
  = get_folder_files scenario_folder "proj" [].
Proof.
  apply (get_folder_files_dead_exclusions scenario_folder "proj" ["proj/docs/"; ""]).
  - constructor; [right; reflexivity|]. constructor; [left; reflexivity|]. constructor.
  - apply scenario_folder_proper.
Defined.

Lemma main_folder_scan_empty_line_witness :
  main_folder_scan scenario_folder [0%nat; 1%nat; 2%nat] "proj" ""
  = Ok (Saved "folder-formatted-prompt.txt"
          (file_block "proj/a.py" "x" +:+ file_block "proj/docs/index.md" "z"
           +:+ file_block "proj/src/main.js" "w")).
Proof.
  rewrite (main_folder_scan_empty_line scenario_folder [0%nat; 1%nat; 2%nat] "proj"
             scenario_folder_proper).
  reflexivity.
Defined.

Lemma main_github_auto_remote_witness :
  main_github_auto lenient_brackets not_found_server scenario_b64decode 1 true
    (CompletedProcess 0 ("https://github.com/martinmagala" +:+ NL)) None empty_world
  = save_github_repo lenient_brackets not_found_server scenario_b64decode 1
      "https://github.com/martinmagala" None empty_world ∧
  main_github_auto lenient_brackets not_found_server scenario_b64decode 1 true
    (CompletedProcess 128 "") None empty_world
  = (Ok (Printed "GitHub URL could not be extracted."), empty_world).
Proof.
  pose proof (main_github_auto_remote lenient_brackets not_found_server
                scenario_b64decode 1 None empty_world) as (Hline & Hcode & _ & _).
  split.
  - apply Hline; [reflexivity | discriminate].
  - apply Hcode. discriminate.
Defined.

Lemma fetch_repo_content_headers_witness :
  assoc "Accept" (request_headers (Some "t0ken")) = Some "application/vnd.github.v3+json" ∧
  assoc "Authorization" (request_headers (Some "t0ken")) = Some "Bearer t0ken".
Proof.
  pose (run := fetch_repo_content paged_server 3 issues_url (Some "t0ken") ".cache" 100
                 empty_world).
  apply (fetch_repo_content_headers paged_server 3 issues_url (Some "t0ken") ".cache" 100
           empty_world (fst run) (snd run)
           (page_request issues_url (request_headers (Some "t0ken")) 100 2)).
  - apply surjective_pairing.
  - vm_compute. apply list_elem_of_further, list_elem_of_here.
Defined.

Lemma process_github_repo_requests_witness :
  let run := process_github_repo not_found_server scenario_b64decode 1 "o" "r"
               (Some "t0ken") ".cache" cached_world in
  requests_within (repo_request "o" "r" (Some "t0ken")) cached_world (snd run).
Proof.
  intros run.
  apply (process_github_repo_requests not_found_server scenario_b64decode 1 "o" "r"
           (Some "t0ken") ".cache" cached_world (fst run) (snd run)).
  apply surjective_pairing.
Defined.
